(** * Curseforge Pack Downloader: the front end and the unpack core

    The TypeScript front end (curseforge.ts, modpack_version_file.ts,
    PackItemComponent.tsx, PackVersionSelectModal.tsx, Home.tsx) is
    embedded as programs over the effects it performs: Tauri [invoke]
    calls, file dialogs, alerts, console output and React state updates.
    The unpack core behind [invoke] is not part of the TypeScript sources;
    it is modelled from its specification in the second half. *)

From Stdlib Require Import ZArith QArith Qround.
From stdpp Require Import base option list strings gmap sorting.

Set Warnings "-register-all".
Local Open Scope string_scope.
Local Open Scope list_scope.
Local Open Scope Z_scope.

(** ** JavaScript values *)

(** The values that cross the [invoke] boundary and that [JSON.parse]
    produces.  Objects keep their fields in insertion order. Numbers that
    the front end handles as values are identifiers, hence integers. *)
Inductive jsval : Type :=
| JUndefined
| JNull
| JBool (b : bool)
| JNum (n : Z)
| JStr (s : string)
| JArr (items : list jsval)
| JObj (fields : list (string * jsval)).

Inductive exn : Type :=
| TypeError (what : string)
| SyntaxError (what : string)
| Rejected (reason : string).

Fixpoint assoc {V : Type} (key : string) (fields : list (string * V)) : option V :=
  match fields with
  | [] => None
  | (k, v) :: rest => if String.eqb k key then Some v else assoc key rest
  end.

(** [o.key]: reading a property of [undefined] or [null] throws, a missing
    property of anything else reads as [undefined]. *)
Definition get_prop (o : jsval) (key : string) : exn + jsval :=
  match o with
  | JUndefined | JNull => inl (TypeError ("Cannot read properties (reading '" +:+ key +:+ "')"))
  | JObj fields => inr (default JUndefined (assoc key fields))
  | _ => inr JUndefined
  end.

(** [a[i]] for a non-negative literal index: an element of an array, a
    character of a string; objects are not indexed by number here. *)
Definition get_index (a : jsval) (i : nat) : exn + jsval :=
  match a with
  | JUndefined | JNull => inl (TypeError "Cannot read properties (reading index)")
  | JArr items => inr (default JUndefined (items !! i))
  | JStr s => inr (match String.get i s with
                   | Some c => JStr (String c EmptyString)
                   | None => JUndefined
                   end)
  | _ => inr JUndefined
  end.

(** Truthiness of the result of a file dialog ([string | null]). *)
Definition truthy_path (p : option string) : option string :=
  match p with
  | Some s => if String.eqb s "" then None else Some s
  | None => None
  end.

(** ** curseforge.ts: progress messages *)

Inductive ProcessStage : Type :=
| ExtractingArchive
| DownloadingArchive
| DownloadingMods
| Finalizing.

(** A TypeScript numeric enum: members are numbered from 0 in declaration
    order, and the enum object maps the numbers back to the names. *)
Definition ProcessStage_value (s : ProcessStage) : Z :=
  match s with
  | ExtractingArchive => 0
  | DownloadingArchive => 1
  | DownloadingMods => 2
  | Finalizing => 3
  end.

Definition ProcessStage_name (s : ProcessStage) : string :=
  match s with
  | ExtractingArchive => "ExtractingArchive"
  | DownloadingArchive => "DownloadingArchive"
  | DownloadingMods => "DownloadingMods"
  | Finalizing => "Finalizing"
  end.

#[global] Instance ProcessStage_eq_dec : EqDecision ProcessStage.
Proof. solve_decision. Defined.

Record ProcessProgressResponse : Type := {
  stage : ProcessStage;
  progress : Q;
  message : string
}.

(** ** Effects of the front end *)

(** An argument of [invoke]: a plain value, or the [Channel] object on
    which the core delivers progress messages. *)
Inductive arg : Type :=
| Val (v : jsval)
| Chan.

(** What an [invoke] call does while it is awaited: the messages that
    reach the channel before the promise settles, in order, and how the
    promise settles. A message that arrives once the promise has settled
    is not part of the reply, see [late_delivery]. *)
Record invoke_reply : Type := {
  delivered : list ProcessProgressResponse;
  settled : exn + jsval
}.

(** The options given to [alert]; an action is its label and the path its
    [onClick] opens. *)
Record AlertOptions : Type := {
  alert_title : string;
  alert_type : string;
  alert_message : string;
  alert_actions : list (string * jsval)
}.

(** The effects, each with the type of its answer. A file dialog is
    known by its title and by whether it selects a directory; its other
    options shape the dialog only. *)
Inductive event : Type -> Type :=
| Invoke (cmd : string) (args : list (string * arg)) : event invoke_reply
| JSON_parse (text : jsval) : event (exn + jsval)
| OpenFileDialog (title : string) (directory : bool) : event (option string)
| Alert (options : AlertOptions) : event unit
| ConsoleError (msg : string) : event unit
| SetUnpackProgress (p : option ProcessProgressResponse) : event unit
| SetSelectedPackId (p : option jsval) : event unit.

(** An [async] function body: it returns, throws (a rejected promise), or
    performs an effect and continues with its answer. *)
Inductive prog (A : Type) : Type :=
| Ret (a : A)
| Throw (e : exn)
| Vis {X : Type} (ev : event X) (k : X -> prog A).

Arguments Ret {A} a.
Arguments Throw {A} e.
Arguments Vis {A X} ev k.

Fixpoint bind {A B : Type} (p : prog A) (f : A -> prog B) : prog B :=
  match p with
  | Ret a => f a
  | Throw e => Throw e
  | Vis ev k => Vis ev (fun x => bind (k x) f)
  end.

(** [try { p } catch (e) { h e }] *)
Fixpoint try_catch {A : Type} (p : prog A) (h : exn -> prog A) : prog A :=
  match p with
  | Ret a => Ret a
  | Throw e => h e
  | Vis ev k => Vis ev (fun x => try_catch (k x) h)
  end.

Notation "'let*' x ':=' p 'in' q" := (bind p (fun x => q))
  (at level 10, x name, p at level 100, q at level 200, only parsing).
Notation "p '>>' q" := (bind p (fun _ => q))
  (at level 100, q at level 200, right associativity, only parsing).

Definition perform {X : Type} (ev : event X) : prog X := Vis ev Ret.

Definition lift {A : Type} (r : exn + A) : prog A :=
  match r with
  | inl e => Throw e
  | inr a => Ret a
  end.

(** A call of an [async] function whose promise is not awaited, as the
    last thing its caller does: its effects happen, its rejection never
    reaches the caller. *)
Definition detach (p : prog unit) : prog unit :=
  try_catch p (fun _ => Ret tt).

(** The effects whose answer a program awaits; the others are synchronous
    calls. *)
Definition awaited {X : Type} (ev : event X) : bool :=
  match ev with
  | Invoke _ _ | OpenFileDialog _ _ => true
  | _ => false
  end.

(** [q], and after it [rest], whether [q] returned or threw. *)
Definition and_then (q rest : prog unit) : prog unit :=
  let* thrown := try_catch (q >> Ret None) (fun e => Ret (Some e)) in
  rest >>
  match thrown with
  | Some e => Throw e
  | None => Ret tt
  end.

(** [p(); q] where the promise of the [async] call [p()] is not awaited
    and [q] is synchronous: [p] runs up to its first [await], [q] runs
    while [p] is suspended there, and [p] goes on once the awaited effect
    is answered. *)
Fixpoint detach_then (p q : prog unit) : prog unit :=
  match p with
  | Ret _ | Throw _ => q
  | Vis ev k =>
      if awaited ev then Vis ev (fun x => and_then q (detach (k x)))
      else Vis ev (fun x => detach_then (k x) q)
  end.

Fixpoint for_each {A : Type} (l : list A) (f : A -> prog unit) : prog unit :=
  match l with
  | [] => Ret tt
  | a :: rest => f a >> for_each rest f
  end.

(** [await invoke(cmd, args)] *)
Definition invoke (cmd : string) (args : list (string * arg)) : prog jsval :=
  let* r := perform (Invoke cmd args) in
  lift (settled r).

(** A message on a channel whose [onmessage] is [callback]: the callback
    is called by the channel, not by the code that awaits the command, so
    what it throws reaches neither that code nor the promise. *)
Definition on_message (callback : ProcessProgressResponse -> prog unit)
    (m : ProcessProgressResponse) : prog unit :=
  detach (callback m).

(** [await invoke(cmd, args)] where [args] carries a channel whose
    [onmessage] is [callback]: the messages that arrive while the command
    is awaited run the callback, then the promise settles as the command
    does. *)
Definition invoke_on_channel (cmd : string) (args : list (string * arg))
    (callback : ProcessProgressResponse -> prog unit) : prog jsval :=
  let* r := perform (Invoke cmd args) in
  for_each (delivered r) (on_message callback) >>
  lift (settled r).


(** ** Running a program against the outside world *)

(** The outside world: how the core answers a command, what [JSON.parse]
    makes of a text, and what the user answers to the successive file
    dialogs ([None] for a dismissed dialog). *)
Record world : Type := {
  backend : string -> list (string * arg) -> invoke_reply;
  json : jsval -> exn + jsval;
  dialogs : list (option string)
}.

Definition handle {X : Type} (ev : event X) (w : world) : X * world :=
  match ev in event T return T * world with
  | Invoke cmd args => (backend w cmd args, w)
  | JSON_parse text => (json w text, w)
  | OpenFileDialog _ _ =>
      (mjoin (head (dialogs w)),
       {| backend := backend w; json := json w; dialogs := tail (dialogs w) |})
  | Alert _ => (tt, w)
  | ConsoleError _ => (tt, w)
  | SetUnpackProgress _ => (tt, w)
  | SetSelectedPackId _ => (tt, w)
  end.

Inductive obs : Type :=
| Observed {X : Type} (ev : event X).

(** A finished run: the effects performed, in order, the world left
    behind, and the value returned or the exception thrown. *)
Record finished (A : Type) : Type := {
  trace : list obs;
  after : world;
  result : exn + A
}.

Arguments trace {A} f.
Arguments after {A} f.
Arguments result {A} f.

Fixpoint run {A : Type} (p : prog A) (w : world) : finished A :=
  match p with
  | Ret a => {| trace := []; after := w; result := inr a |}
  | Throw e => {| trace := []; after := w; result := inl e |}
  | Vis ev k =>
      let '(x, w') := handle ev w in
      let r := run (k x) w' in
      {| trace := Observed ev :: trace r; after := after r; result := result r |}
  end.

(** The notifications a trace presents to the user, in order. *)
Definition alerts_of (t : list obs) : list AlertOptions :=
  omap (fun o => match o with
                 | @Observed _ (Alert a) => Some a
                 | _ => None
                 end) t.

(** The [invoke] calls of a trace, in order. *)
Definition invokes_of (t : list obs) : list (string * list (string * arg)) :=
  omap (fun o => match o with
                 | @Observed _ (Invoke cmd args) => Some (cmd, args)
                 | _ => None
                 end) t.

(** The values [setUnpackProgress] was called with, in order. *)
Definition progress_states_of (t : list obs) : list (option ProcessProgressResponse) :=
  omap (fun o => match o with
                 | @Observed _ (SetUnpackProgress p) => Some p
                 | _ => None
                 end) t.

(** The messages written with [console.error], in order. *)
Definition console_errors_of (t : list obs) : list string :=
  omap (fun o => match o with
                 | @Observed _ (ConsoleError msg) => Some msg
                 | _ => None
                 end) t.

(** ** curseforge.ts *)

Definition search_modpacks (query : string) : prog jsval :=
  let* returned :=
    try_catch
      (let* response := invoke "search_modpacks" [("query", Val (JStr query))] in
       let* parsed := (let* r := perform (JSON_parse response) in lift r) in
       Ret (Some parsed))
      (fun err => perform (ConsoleError "failed to search packs") >> Ret None) in
  match returned with
  | Some parsed => Ret parsed
  | None => Ret (JObj [])
  end.

(** The search fails: the command is rejected, or [JSON.parse] throws
    on its answer. *)
Definition search_fails (query : string) (w : world) : bool :=
  match settled (backend w "search_modpacks" [("query", Val (JStr query))]) with
  | inl _ => true
  | inr response =>
      match json w response with
      | inl _ => true
      | inr _ => false
      end
  end.

(** [{id: id, output: path, onEvent: downloadEvent}] *)
Definition unpack_args (id path : jsval) : list (string * arg) :=
  [("id", Val id); ("output", Val path); ("onEvent", Chan)].

Definition unpack_modpack (id path : jsval)
    (callback : ProcessProgressResponse -> prog unit) : prog unit :=
  invoke_on_channel "unpack" (unpack_args id path) callback >>
  Ret tt.

(** [{file: file, output: path, onEvent: downloadEvent}] *)
Definition unpack_file_args (file path : jsval) : list (string * arg) :=
  [("file", Val file); ("output", Val path); ("onEvent", Chan)].

Definition unpack_modpack_file (file path : jsval)
    (callback : ProcessProgressResponse -> prog unit) : prog unit :=
  invoke_on_channel "unpack_file" (unpack_file_args file path) callback >>
  Ret tt.

(** ** modpack_version_file.ts *)

Definition get_pack_versions (id : jsval) : prog jsval :=
  invoke "get_pack_versions" [("id", Val id)].

(** The state updates a delivery of progress messages causes. *)
Definition progress_updates (msgs : list ProcessProgressResponse) : list obs :=
  (fun m => Observed (SetUnpackProgress (Some m))) <$> msgs.

(** The world after one file dialog was answered. *)
Definition answered (w : world) : world :=
  {| backend := backend w; json := json w; dialogs := tail (dialogs w) |}.

Definition save_dialog : obs :=
  Observed (OpenFileDialog "Select a location to save the pack" true).

(** ** PackItemComponent.tsx

    The component with the "Download Latest" and "Select Version"
    buttons; the older component of the same name has one "Download"
    button whose handler is [PackItem_download]. *)

(** The props of one search-result row. [onUnpack] is called the
    JavaScript way, with the list of its actual arguments. *)
Record PackItemProps : Type := {
  id : jsval;
  name : jsval;
  description : jsval;
  author : jsval;
  iconUrl : jsval;
  gameVersion : jsval;
  websiteUrl : jsval;
  onUnpack : list jsval -> prog unit
}.

Definition save_location_dialog : prog (option string) :=
  perform (OpenFileDialog "Select a location to save the pack" true).

(** [onConfirm] of the version picker: [async fileId => ...] *)
Definition PackItem_onConfirm (props : PackItemProps) (fileId : jsval) : prog unit :=
  let* path := save_location_dialog in
  match truthy_path path with
  | Some path => detach (onUnpack props [JStr path; fileId])
  | None => Ret tt
  end.

(** [onClick] of the "Download Latest" button. *)
Definition PackItem_downloadLatest (props : PackItemProps) : prog unit :=
  let* path := save_location_dialog in
  match truthy_path path with
  | Some path =>
      let* files := get_pack_versions (id props) in
      let* first := lift (get_index files 0) in
      let* latest := lift (get_prop first "id") in
      detach (onUnpack props [JStr path; latest])
  | None => Ret tt
  end.

(** [onClick] of the "Download" button of the older component:
    [props.onUnpack(path)]. *)
Definition PackItem_download (props : PackItemProps) : prog unit :=
  let* path := save_location_dialog in
  match truthy_path path with
  | Some path => detach (onUnpack props [JStr path])
  | None => Ret tt
  end.

(** [onClick] of the "Select Version" button. *)
Definition PackItem_selectVersion (props : PackItemProps) : prog unit :=
  perform (SetSelectedPackId (Some (id props))).

(** A handler that stopped at the dismissed save dialog. *)
Definition finished_quietly (w : world) : finished unit :=
  {| trace := [save_dialog]; after := answered w; result := inr tt |}.

(** ** PackVersionSelectModal.tsx *)

Definition itemsPerPage : Z := 20.

(** [Array.prototype.slice(start, end)] on integer arguments: a negative
    index counts from the end, both are clamped to the array. *)
Definition js_slice {A : Type} (l : list A) (start stop : Z) : list A :=
  let len := Z.of_nat (length l) in
  let k := if start <? 0 then Z.max (len + start) 0 else Z.min start len in
  let final := if stop <? 0 then Z.max (len + stop) 0 else Z.min stop len in
  take (Z.to_nat (final - k)) (drop (Z.to_nat k) l).

(** The effect on [[page, fileItems]]: the new value of [pageItems]. *)
Definition pageItems_effect {A : Type} (page : Z) (fileItems pageItems : list A) : list A :=
  if Z.of_nat (length fileItems) =? 0 then pageItems
  else js_slice fileItems ((page - 1) * itemsPerPage) (page * itemsPerPage).

(** [Math.ceil(fileItems.length / itemsPerPage)], the [total] of the
    pagination control. The quotient of two array lengths is far inside
    the range where the division is exact enough for [Math.ceil]. *)
Definition pagination_total {A : Type} (fileItems : list A) : Z :=
  Qceiling (inject_Z (Z.of_nat (length fileItems)) / inject_Z itemsPerPage).

(** [hidden={itemsPerPage > fileItems.length}] *)
Definition pagination_hidden {A : Type} (fileItems : list A) : bool :=
  Z.of_nat (length fileItems) <? itemsPerPage.

(** [onClick] of the "Download" button of a row:
    [props.onConfirm(item.id); onClose();] *)
Definition versionRow_onClick (onConfirm : jsval -> prog unit) (onClose : prog unit)
    (item : jsval) : prog unit :=
  let* file_id := lift (get_prop item "id") in
  detach_then (onConfirm file_id) onClose.

(** The picker as [PackItemComponent] instantiates it. *)
Definition PackItem_pickVersion (props : PackItemProps) (item : jsval) : prog unit :=
  versionRow_onClick (PackItem_onConfirm props)
    (perform (SetSelectedPackId None)) item.

(** ** Home.tsx *)

Definition setUnpackProgress (p : ProcessProgressResponse) : prog unit :=
  perform (SetUnpackProgress (Some p)).

Definition failed_alert : AlertOptions :=
  {| alert_title := "Failed to unpack";
     alert_type := "error";
     alert_message := "Failed to unpack modpack";
     alert_actions := [] |}.

Definition finished_alert (path : jsval) : AlertOptions :=
  {| alert_title := "Unpack Finished";
     alert_type := "info";
     alert_message := "Modpack unpacked successfully.";
     alert_actions := [("Open", path)] |}.

(** What follows the [try]/[catch] in both unpack handlers. *)
Definition after_unpack (path : jsval) : prog unit :=
  perform (SetUnpackProgress None) >>
  perform (Alert (finished_alert path)).

Definition unpack_failed : exn -> prog unit :=
  fun _ =>
    perform (ConsoleError "Failed to unpack modpack.") >>
    perform (Alert failed_alert).

(** The effects of an unpack handler once the awaited command settled. *)
Definition closing_effects (settled_as : exn + jsval) (path : jsval) : list obs :=
  match settled_as with
  | inl _ => [Observed (ConsoleError "Failed to unpack modpack."); Observed (Alert failed_alert)]
  | inr _ => []
  end ++ [Observed (SetUnpackProgress None); Observed (Alert (finished_alert path))].

(** [onUnpack={async path => ...}] of the row for [item]: the function
    has one parameter, further actual arguments are dropped. *)
Definition Home_onUnpack (item : jsval) (args : list jsval) : prog unit :=
  let path := default JUndefined (args !! 0%nat) in
  try_catch
    (let* item_id := lift (get_prop item "id") in
     unpack_modpack item_id path setUnpackProgress)
    unpack_failed >>
  after_unpack path.

(** [onClick] of the archive button. *)
Definition Home_unpackArchive : prog unit :=
  let* file := perform (OpenFileDialog "Select a pack archive" false) in
  match truthy_path file with
  | None => Ret tt
  | Some file =>
      let* path := save_location_dialog in
      match truthy_path path with
      | None => Ret tt
      | Some path =>
          try_catch
            (unpack_modpack_file (JStr file) (JStr path) setUnpackProgress)
            unpack_failed >>
          after_unpack (JStr path)
      end
  end.

(** The first dialog of the archive button is dismissed, or the second. *)
Definition archive_dialogs_dismissed (w : world) : bool :=
  match truthy_path (mjoin (head (dialogs w))) with
  | None => true
  | Some _ =>
      match truthy_path (mjoin (head (tail (dialogs w)))) with
      | None => true
      | Some _ => false
      end
  end.

(** The props of the row rendered for [item]. *)
Definition Home_row (item : jsval) : exn + PackItemProps :=
  let get o k := match o with inl e => inl e | inr v => get_prop v k end in
  let at0 o := match o with inl e => inl e | inr v => get_index v 0 end in
  match get (inr item) "id", get (inr item) "name", get (inr item) "summary",
        get (at0 (get (inr item) "authors")) "name",
        get (get (inr item) "logo") "thumbnailUrl",
        get (at0 (get (inr item) "latestFilesIndexes")) "gameVersion",
        get (get (inr item) "links") "websiteUrl" with
  | inr i, inr n, inr d, inr a, inr l, inr g, inr u =>
      inr {| id := i; name := n; description := d; author := a; iconUrl := l;
             gameVersion := g; websiteUrl := u; onUnpack := Home_onUnpack item |}
  | inl e, _, _, _, _, _, _
  | _, inl e, _, _, _, _, _
  | _, _, inl e, _, _, _, _
  | _, _, _, inl e, _, _, _
  | _, _, _, _, inl e, _, _
  | _, _, _, _, _, inl e, _
  | _, _, _, _, _, _, inl e => inl e
  end.

Fixpoint map_rows (items : list jsval) : exn + list PackItemProps :=
  match items with
  | [] => inr []
  | item :: rest =>
      match Home_row item with
      | inl e => inl e
      | inr row =>
          match map_rows rest with
          | inl e => inl e
          | inr rows => inr (row :: rows)
          end
      end
  end.

(** [items?.data.map(...)]: nothing when [items] is [null] (the initial
    state, or a search that answered [null]); otherwise [.map] is called
    on whatever [items.data] is. *)
Definition Home_rows (items : option jsval) : exn + list PackItemProps :=
  match items with
  | None | Some JNull | Some JUndefined => inr []
  | Some result =>
      match get_prop result "data" with
      | inl e => inl e
      | inr (JArr data) => map_rows data
      | inr JUndefined | inr JNull =>
          inl (TypeError "Cannot read properties (reading 'map')")
      | inr _ => inl (TypeError "items.data.map is not a function")
      end
  end.

(** ** OInput.tsx *)

(** [{...target, key: v}]: an own property keeps its place and takes the
    new value, a new one is added last. *)
Fixpoint js_set (key : string) (v : jsval) (fields : list (string * jsval))
    : list (string * jsval) :=
  match fields with
  | [] => [(key, v)]
  | (k, x) :: rest =>
      if String.eqb k key then (k, v) :: rest else (k, x) :: js_set key v rest
  end.

(** [{...target, ...source}] *)
Definition js_assign (target source : list (string * jsval)) : list (string * jsval) :=
  foldl (fun acc field => js_set field.1 field.2 acc) target source.

(** The properties a spread [...v] contributes: those of an object, none
    for [undefined] and [null]. *)
Definition spread_fields (v : jsval) : list (string * jsval) :=
  match v with
  | JObj fields => fields
  | _ => []
  end.

(** [o?.key] *)
Definition get_prop_opt (o : jsval) (key : string) : jsval :=
  match o with
  | JUndefined | JNull => JUndefined
  | JObj fields => default JUndefined (assoc key fields)
  | _ => JUndefined
  end.

Definition inputWrapper_classes : list jsval :=
  [JStr "dark:bg-[#242424] bg-neutral-50";
   JStr "dark:data-[focus]:!bg-neutral-800 dark:data-[hover]:!bg-neutral-800";
   JStr "data-[focus]:!bg-neutral-100 data-[hover]:!bg-neutral-100"].

(** The props [OInput] hands to [Input]: the attribute [classNames]
    first, then the spread [{...props}]. [cn] is the class-name merger of
    the component library. *)
Definition OInput (cn : list jsval -> jsval) (props : list (string * jsval))
    : list (string * jsval) :=
  let classNames := default JUndefined (assoc "classNames" props) in
  let merged :=
    JObj (js_set "inputWrapper"
            (cn (inputWrapper_classes ++ [get_prop_opt classNames "inputWrapper"]))
            (js_assign [] (spread_fields classNames))) in
  js_assign [("classNames", merged)] props.

(** * The unpack core, modelled from its specification

    The commands behind [invoke] ("unpack", "unpack_file",
    "get_pack_versions") are implemented outside the TypeScript sources.
    Everything in this module follows the specification of that core. *)

Module Core.

(** Modelled from the spec: the error taxonomy of section 7. The taxonomy
    names no error for a manifest that fails to parse or to validate;
    the model calls it [InvalidManifest]. *)
Inductive Error : Type :=
| CorruptArchive
| MissingManifest
| InvalidManifest
| UnsafeEntryPath
| CatalogUnavailable
| FileNotFound
| MalformedCatalogResponse
| HashMismatch
| RequiredFileFailed
| FilesystemError
| Cancelled.

#[global] Instance Error_eq_dec : EqDecision Error.
Proof. solve_decision. Defined.

(** ** Catalog Client: version listing *)

(** Modelled from the spec: a version descriptor is (id, display name,
    release date, hash, size); the release date is an instant. *)
Record VersionDescriptor : Type := {
  v_id : Z;
  v_displayName : string;
  v_releaseDate : Z;
  v_hash : string;
  v_size : Z
}.

(** Modelled from the spec: the order of a "most-recent first" listing;
    [a] may precede [b] when it was not released before [b]. *)
Definition newer_first (a b : VersionDescriptor) : Prop :=
  v_releaseDate b <= v_releaseDate a.

#[global] Instance newer_first_dec a b : Decision (newer_first a b).
Proof. unfold newer_first. apply _. Defined.

(** Modelled from the spec: the remote catalog holds, for each pack, its
    published files in no particular order; [listVersions] returns them as
    an "ordered sequence of version descriptors, most-recent first". *)
Definition listVersions (catalog : gmap Z (list VersionDescriptor)) (projectId : Z)
    : list VersionDescriptor :=
  merge_sort newer_first (default [] (catalog !! projectId)).

(** Modelled from the spec: without an explicit file id the Manifest
    Resolver "selects the most recent version via the Catalog Client's
    version listing"; a pack without versions has no file to resolve. *)
Definition select_version (catalog : gmap Z (list VersionDescriptor))
    (packId : Z) (versionFileId : option Z) : Error + Z :=
  match versionFileId with
  | Some file => inr file
  | None =>
      match listVersions catalog packId with
      | latest :: _ => inr (v_id latest)
      | [] => inl FileNotFound
      end
  end.

(** Modelled from the spec: the listing as the front end receives it, one
    object per descriptor under the field names of [ModpackVersionFile]. *)
Definition encode_version (v : VersionDescriptor) : jsval :=
  JObj [("id", JNum (v_id v));
        ("displayName", JStr (v_displayName v));
        ("fileDate", JNum (v_releaseDate v));
        ("hashes", JArr [JObj [("value", JStr (v_hash v))]]);
        ("fileLength", JNum (v_size v))].

Definition get_pack_versions_reply (catalog : gmap Z (list VersionDescriptor))
    (packId : Z) : invoke_reply :=
  {| delivered := []; settled := inr (JArr (encode_version <$> listVersions catalog packId)) |}.

(** Modelled from the spec: [unpackFromPackId(packId, fileId?, outputDir)]
    as it reads the arguments of the "unpack" command: the pack id and the
    output directory under the names the front end sends them, the
    optional file id under the name the specification gives it. *)
Record UnpackRequest : Type := {
  req_packId : Z;
  req_fileId : option Z;
  req_outputDir : string
}.

Definition unpack_request (args : list (string * arg)) : option UnpackRequest :=
  match assoc "id" args, assoc "output" args with
  | Some (Val (JNum pack)), Some (Val (JStr out)) =>
      Some {| req_packId := pack;
              req_fileId := match assoc "fileId" args with
                            | Some (Val (JNum file)) => Some file
                            | _ => None
                            end;
              req_outputDir := out |}
  | _, _ => None
  end.

(** Modelled from the spec: the file the core unpacks for an "unpack"
    command, [resolveFromPackId(packId, versionFileId?)]. *)
Definition unpack_target (catalog : gmap Z (list VersionDescriptor))
    (args : list (string * arg)) : option (Error + Z) :=
  (fun r => select_version catalog (req_packId r) (req_fileId r)) <$> unpack_request args.

(** ** Archive Reader *)

(** Modelled from the spec: the file entries of a zip archive. A path is
    its sequence of segments; an entry is named by its path inside the
    archive and carries the bytes of the file. The file system maps the
    paths of files to their contents; directories exist through the files
    below them, so that "creating directories as needed" needs no step of
    its own. *)
Record ArchiveEntry : Type := {
  entry_path : list string;
  entry_data : string
}.

(** Modelled from the spec: "Archive must be a valid zip container"; an
    archive whose central directory cannot be read has no entry list. *)
Definition Archive : Type := option (list ArchiveEntry).

(** Modelled from the spec: "Manifest entry must exist at a known fixed
    name". *)
Definition manifest_name : list string := ["manifest.json"].

(** Modelled from the spec: a Mod File Entry, "a reference to a remote
    file, not yet resolved to bytes". *)
Record ModFileEntry : Type := {
  projectId : Z;
  fileId : Z;
  required : bool
}.

#[global] Instance ModFileEntry_eq_dec : EqDecision ModFileEntry.
Proof. solve_decision. Defined.

(** Modelled from the spec: the Modpack Manifest, "parsed from the
    archive's manifest entry". *)
Record Manifest : Type := {
  minecraftVersion : string;
  modLoaderId : string;
  files : list ModFileEntry;
  overridesPath : string
}.

(** Modelled from the spec: one element of [files]; all three fields are
    required. *)
Definition entry_of_json (v : jsval) : option ModFileEntry :=
  match v with
  | JObj fields =>
      match assoc "projectId" fields, assoc "fileId" fields, assoc "required" fields with
      | Some (JNum p), Some (JNum f), Some (JBool r) =>
          Some {| projectId := p; fileId := f; required := r |}
      | _, _, _ => None
      end
  | _ => None
  end.

(** Modelled from the spec: "no two entries may share the same
    (projectId, fileId) pair; duplicates are a validation error". *)
Definition entry_key (e : ModFileEntry) : Z * Z := (projectId e, fileId e).

Definition unique_entries (entries : list ModFileEntry) : bool :=
  bool_decide (NoDup (entry_key <$> entries)).

(** Modelled from the spec: a manifest "that fails to parse (malformed
    JSON, missing required fields) is rejected". *)
Definition manifest_of_json (v : jsval) : option Manifest :=
  match v with
  | JObj fields =>
      match assoc "minecraftVersion" fields, assoc "modLoaderId" fields,
            assoc "files" fields, assoc "overridesPath" fields with
      | Some (JStr mc), Some (JStr loader), Some (JArr items), Some (JStr overrides) =>
          entries ← mapM entry_of_json items;
          if unique_entries entries
          then Some {| minecraftVersion := mc; modLoaderId := loader;
                       files := entries; overridesPath := overrides |}
          else None
      | _, _, _, _ => None
      end
  | _ => None
  end.

(** The first entry of that name. *)
Definition find_entry (name : list string) (entries : list ArchiveEntry)
    : option ArchiveEntry :=
  list_find (fun e => entry_path e = name) entries ≫= (fun found => Some found.2).

(** Modelled from the spec: [openManifest(archivePath) -> Manifest | Error].
    [parse_json] is the JSON reader of the platform. It reads the archive
    and touches nothing else. *)
Definition openManifest (parse_json : string -> option jsval) (archive : Archive)
    : Error + Manifest :=
  match archive with
  | None => inl CorruptArchive
  | Some entries =>
      match find_entry manifest_name entries with
      | None => inl MissingManifest
      | Some e =>
          match parse_json (entry_data e) ≫= manifest_of_json with
          | None => inl InvalidManifest
          | Some m => inr m
          end
      end
  end.

(** Modelled from the spec: the "resolved path" of an entry. Resolution
    is lexical, segment by segment: "." and empty segments vanish, ".."
    removes the segment before it (and stays at the root). The stack
    holds the resolved segments, innermost first. *)
Definition push_segment (stack : list string) (seg : string) : list string :=
  if bool_decide (seg = "." ∨ seg = "") then stack
  else if bool_decide (seg = "..") then tail stack
  else seg :: stack.

(** The resolved path. *)
Definition resolve (p : list string) : list string :=
  rev (foldl push_segment [] p).

(** Modelled from the spec: the destination of the entry at [rel] below
    the prefix, "preserving relative paths under internalPrefix". *)
Definition destination (destDir rel : list string) : list string :=
  resolve (destDir ++ rel).

(** Modelled from the spec: the path traversal guard; an entry is safe
    when its resolved path stays below the destination directory. *)
Definition escapes (destDir rel : list string) : bool :=
  negb (bool_decide (resolve destDir `prefix_of` destination destDir rel)).

(** A segment that names a file or a directory: not ".", "" or "..". *)
Definition plain (seg : string) : Prop := seg <> "." /\ seg <> "" /\ seg <> "..".

(** Modelled from the spec: an entry is "under internalPrefix" when its
    path starts with the prefix; the rest is its relative path. *)
Fixpoint strip_prefix (prefix p : list string) : option (list string) :=
  match prefix, p with
  | [], rel => Some rel
  | a :: prefix', b :: p' => if bool_decide (a = b) then strip_prefix prefix' p' else None
  | _ :: _, [] => None
  end.

(** Modelled from the spec: the entries of the subtree, each with its
    path below the prefix. An entry named by the prefix itself has no path
    below it and is left out. *)
Definition subtree (internalPrefix : list string) (entries : list ArchiveEntry)
    : list (list string * string) :=
  omap (fun e => match strip_prefix internalPrefix (entry_path e) with
                 | Some (seg :: rel) => Some (seg :: rel, entry_data e)
                 | _ => None
                 end) entries.

(** Modelled from the spec: writing one extracted entry. *)
Definition write_entry (destDir : list string) (fs : gmap (list string) string)
    (entry : list string * string) : gmap (list string) string :=
  <[destination destDir entry.1 := entry.2]> fs.

(** Modelled from the spec: [extractSubtree(archivePath, internalPrefix,
    destDir) -> Error?]. "Extraction preserves relative paths under
    internalPrefix"; "it rejects entries whose resolved path would escape
    destDir (path traversal guard) with UnsafeEntryPath", and then leaves
    the output directory "untouched": entry names are checked before the
    first entry is written. *)
Definition extractSubtree (archive : Archive) (internalPrefix destDir : list string)
    (fs : gmap (list string) string) : gmap (list string) string * (Error + unit) :=
  match archive with
  | None => (fs, inl CorruptArchive)
  | Some entries =>
      let todo := subtree internalPrefix entries in
      if forallb (fun entry => negb (escapes destDir entry.1)) todo
      then (foldl (write_entry destDir) fs todo, inr tt)
      else (fs, inl UnsafeEntryPath)
  end.

(** ** Download Orchestrator *)

(** Modelled from the spec: one attempt at an entry, "resolve via
    Catalog Client → stream download → verify". It yields the file (its
    name and bytes) or the error it met. *)
Inductive AttemptResult : Type :=
| Fetched (file : string) (data : string)
| AttemptFailed (e : Error).

(** Modelled from the spec: retries happen "on CatalogUnavailable or
    transport-level I/O errors", the network failures the taxonomy calls
    [CatalogUnavailable]; "FileNotFound and hash-mismatch are
    non-retryable per-entry failures". *)
Definition retryable (e : Error) : bool :=
  match e with
  | CatalogUnavailable => true
  | _ => false
  end.

(** Modelled from the spec: the retry loop. The attempts at [entry] from
    attempt number [k] on, with [more] further attempts allowed after
    this one. *)
Fixpoint attempts_from (attempt : ModFileEntry -> nat -> AttemptResult)
    (entry : ModFileEntry) (k more : nat) : AttemptResult :=
  match attempt entry k with
  | Fetched file data => Fetched file data
  | AttemptFailed e =>
      match more with
      | S more' => if retryable e then attempts_from attempt entry (S k) more'
                   else AttemptFailed e
      | O => AttemptFailed e
      end
  end.

(** Modelled from the spec: "up to N attempts (e.g. 3) per entry". *)
Definition fetch_entry (attempt : ModFileEntry -> nat -> AttemptResult)
    (maxAttempts : nat) (entry : ModFileEntry) : AttemptResult :=
  attempts_from attempt entry 0 (Nat.pred maxAttempts).

(** Modelled from the spec: an entry "ultimately fails" when its attempts
    end without the file. *)
Definition fails (attempt : ModFileEntry -> nat -> AttemptResult)
    (maxAttempts : nat) (entry : ModFileEntry) : bool :=
  match fetch_entry attempt maxAttempts entry with
  | Fetched _ _ => false
  | AttemptFailed _ => true
  end.

(** Modelled from the spec: an entry "exhausts retries" when every
    allowed attempt fails with a retryable error. *)
Definition exhausts_retries (attempt : ModFileEntry -> nat -> AttemptResult)
    (maxAttempts : nat) (entry : ModFileEntry) : Prop :=
  forall k : nat, (k < Nat.max 1 maxAttempts)%nat ->
    exists e, attempt entry k = AttemptFailed e /\ retryable e = true.

(** Modelled from the spec: "DownloadReport aggregates: count succeeded,
    count skipped-optional, list of hard failures (entry + reason)". *)
Record DownloadReport : Type := {
  succeeded : nat;
  skipped : nat;
  hardFailures : list (ModFileEntry * Error)
}.

(** The report before any entry finished. *)
Definition empty_report : DownloadReport :=
  {| succeeded := 0; skipped := 0; hardFailures := [] |}.

(** Modelled from the spec: an entry "marked required = false that
    ultimately fails is recorded as a skipped/optional failure"; a failed
    required entry is a hard failure. *)
Definition record_outcome (entry : ModFileEntry) (outcome : AttemptResult)
    (report : DownloadReport) : DownloadReport :=
  match outcome with
  | Fetched _ _ =>
      {| succeeded := S (succeeded report); skipped := skipped report;
         hardFailures := hardFailures report |}
  | AttemptFailed e =>
      if required entry
      then {| succeeded := succeeded report; skipped := skipped report;
              hardFailures := hardFailures report ++ [(entry, e)] |}
      else {| succeeded := succeeded report; skipped := S (skipped report);
              hardFailures := hardFailures report |}
  end.

(** Modelled from the spec: a failed required entry "fails the entire run
    with RequiredFileFailed". *)
Definition run_outcome (report : DownloadReport) : Error + DownloadReport :=
  match hardFailures report with
  | [] => inr report
  | _ :: _ => inl RequiredFileFailed
  end.

(** Modelled from the spec: the worker pool; entries still queued,
    entries in flight, and the report aggregated so far. *)
Record Pool : Type := {
  queue : list ModFileEntry;
  inflight : list ModFileEntry;
  report : DownloadReport
}.

(** Every entry queued, no worker busy. *)
Definition pool_init (entries : list ModFileEntry) : Pool :=
  {| queue := entries; inflight := []; report := empty_report |}.

(** Modelled from the spec: "completion/failure of individual downloads
    may be observed in any order". What happens next: the next queued
    entry goes to a free worker, or the worker at position [i] finishes. *)
Inductive Action : Type :=
| Start
| Finish (i : nat).

(** Modelled from the spec: "a bounded worker pool (fixed concurrency
    limit) pulling from the entry list"; a finished entry is folded into
    the report. *)
Definition pool_step (attempt : ModFileEntry -> nat -> AttemptResult)
    (maxAttempts limit : nat) (a : Action) (p : Pool) : option Pool :=
  match a with
  | Start =>
      match queue p with
      | entry :: rest =>
          if bool_decide (length (inflight p) < limit)%nat
          then Some {| queue := rest; inflight := inflight p ++ [entry];
                       report := report p |}
          else None
      | [] => None
      end
  | Finish i =>
      match inflight p !! i with
      | Some entry =>
          Some {| queue := queue p; inflight := delete i (inflight p);
                  report := record_outcome entry
                              (fetch_entry attempt maxAttempts entry) (report p) |}
      | None => None
      end
  end.

(** The pool after a schedule; [None] when the schedule asks for a step
    the pool cannot take. *)
Fixpoint pool_run (attempt : ModFileEntry -> nat -> AttemptResult)
    (maxAttempts limit : nat) (schedule : list Action) (p : Pool) : option Pool :=
  match schedule with
  | [] => Some p
  | a :: rest =>
      match pool_step attempt maxAttempts limit a p with
      | Some p' => pool_run attempt maxAttempts limit rest p'
      | None => None
      end
  end.

(** Modelled from the spec: the terminal outcome exists only once the
    queue is empty and "all in-flight entries have been allowed to
    finish". *)
Definition pool_result (p : Pool) : option (Error + DownloadReport) :=
  match queue p, inflight p with
  | [], [] => Some (run_outcome (report p))
  | _, _ => None
  end.

(** The schedule that downloads the entries one after the other. *)
Definition sequential_schedule (entries : list ModFileEntry) : list Action :=
  entries ≫= (fun _ => [Start; Finish 0]).

(** The report after the entries of [finished] finished in this order. *)
Definition report_of (attempt : ModFileEntry -> nat -> AttemptResult) (maxAttempts : nat)
    (finished : list ModFileEntry) : DownloadReport :=
  foldl (fun r entry => record_outcome entry (fetch_entry attempt maxAttempts entry) r)
        empty_report finished.

Definition optional_failure (attempt : ModFileEntry -> nat -> AttemptResult)
    (maxAttempts : nat) (entry : ModFileEntry) : bool :=
  negb (required entry) && fails attempt maxAttempts entry.

Definition required_failure (attempt : ModFileEntry -> nat -> AttemptResult)
    (maxAttempts : nat) (entry : ModFileEntry) : bool :=
  required entry && fails attempt maxAttempts entry.

Definition success (attempt : ModFileEntry -> nat -> AttemptResult)
    (maxAttempts : nat) (entry : ModFileEntry) : bool :=
  negb (fails attempt maxAttempts entry).

(** The pool invariant: the entries are those already folded into the
    report, those in flight and those queued; the pool never exceeds its
    concurrency limit. *)
Definition pool_inv (attempt : ModFileEntry -> nat -> AttemptResult)
    (maxAttempts limit : nat) (entries : list ModFileEntry) (p : Pool) : Prop :=
  (length (inflight p) <= limit)%nat
  /\ exists finished,
       report p = report_of attempt maxAttempts finished
       /\ finished ++ inflight p ++ queue p ≡ₚ entries.

(** Modelled from the spec: a verified download is renamed into place
    in the mods directory of the output tree. *)
Definition write_download (destDir : list string) (outcome : AttemptResult)
    (fs : gmap (list string) string) : gmap (list string) string :=
  match outcome with
  | Fetched file data => <[resolve destDir ++ ["mods"; file] := data]> fs
  | AttemptFailed _ => fs
  end.

(** Modelled from the spec: [downloadAll(entries, destDir, progressSink)
    -> DownloadReport], writing each verified file "into the target mods
    directory". The report does not depend on the order in which the
    workers finish; this is the aggregation in list order. *)
Definition downloadAll (attempt : ModFileEntry -> nat -> AttemptResult)
    (maxAttempts : nat) (entries : list ModFileEntry) (destDir : list string)
    (fs : gmap (list string) string)
    : gmap (list string) string * DownloadReport :=
  foldl (fun acc entry =>
           let outcome := fetch_entry attempt maxAttempts entry in
           (write_download destDir outcome acc.1, record_outcome entry outcome acc.2))
        (fs, empty_report) entries.

(** ** Unpack Coordinator: a run from a local archive *)

(** Modelled from the spec: "the manifest and any overrides subtree are
    written under the caller-supplied output directory using the
    archive's relative paths unchanged". *)
Definition persist_manifest (archive : Archive) (outputDir : list string)
    (fs : gmap (list string) string) : gmap (list string) string :=
  match archive ≫= find_entry manifest_name with
  | Some e => <[resolve outputDir ++ manifest_name := entry_data e]> fs
  | None => fs
  end.

(** Modelled from the spec: [unpackFromArchive(localPath, outputDir)]
    runs Manifest Resolution, Archive Extraction (overrides), Mod
    Download and Finalization in sequence and is "terminal on first
    unrecoverable error or on completion". It returns the file system it
    leaves behind and the terminal result. *)
Definition unpackFromArchive (parse_json : string -> option jsval)
    (attempt : ModFileEntry -> nat -> AttemptResult) (maxAttempts : nat)
    (archive : Archive) (outputDir : list string) (fs : gmap (list string) string)
    : gmap (list string) string * (Error + unit) :=
  match openManifest parse_json archive with
  | inl e => (fs, inl e)
  | inr manifest =>
      match extractSubtree archive [overridesPath manifest] outputDir fs with
      | (fs1, inl e) => (fs1, inl e)
      | (fs1, inr _) =>
          let '(fs2, report) := downloadAll attempt maxAttempts (files manifest) outputDir fs1 in
          match run_outcome report with
          | inl e => (fs2, inl e)
          | inr _ => (persist_manifest archive outputDir fs2, inr tt)
          end
      end
  end.

(** ** Sample packs *)

(** The manifest text of an overrides-only pack (written here without
    its quotation marks) and what the JSON reader makes of it. *)
Definition overrides_only_text : string :=
  "{minecraftVersion:1.20.1,modLoaderId:forge-47.2.0,files:[],overridesPath:overrides}".

Definition overrides_only_json : jsval :=
  JObj [("minecraftVersion", JStr "1.20.1");
        ("modLoaderId", JStr "forge-47.2.0");
        ("files", JArr []);
        ("overridesPath", JStr "overrides")].

Definition sample_reader (text : string) : option jsval :=
  if String.eqb text overrides_only_text then Some overrides_only_json else None.

Definition overrides_only_manifest : Manifest :=
  {| minecraftVersion := "1.20.1"; modLoaderId := "forge-47.2.0";
     files := []; overridesPath := "overrides" |}.

(** An overrides-only pack with an entry ["../../evil"] below the
    overrides prefix. *)
Definition evil_archive : list ArchiveEntry :=
  [ {| entry_path := ["manifest.json"]; entry_data := overrides_only_text |};
    {| entry_path := ["overrides"; "config"; "a.cfg"]; entry_data := "alpha=1" |};
    {| entry_path := ["overrides"; ".."; ".."; "evil"]; entry_data := "payload" |} ].

Definition sample_output : list string := ["home"; "packs"; "atm"].

(** Three required entries and an optional one whose catalog lookup
    returns [FileNotFound]; the second required entry needs a retry. *)
Definition sample_entries : list ModFileEntry :=
  [ {| projectId := 1; fileId := 11; required := true |};
    {| projectId := 2; fileId := 22; required := true |};
    {| projectId := 3; fileId := 33; required := false |};
    {| projectId := 4; fileId := 44; required := true |} ].

Definition sample_attempt (entry : ModFileEntry) (k : nat) : AttemptResult :=
  if (projectId entry =? 3)%Z then AttemptFailed FileNotFound
  else if (projectId entry =? 2)%Z && (k =? 0)%nat then AttemptFailed CatalogUnavailable
  else Fetched "mod.jar" "bytes".

(** Two workers: two entries start, the second finishes first, and so on. *)
Definition sample_schedule : list Action :=
  [Start; Start; Finish 1; Start; Finish 0; Start; Finish 1; Finish 0].

End Core.

(** * Sample search result *)

Definition atm_v20 : Core.VersionDescriptor :=
  {| Core.v_id := 20; Core.v_displayName := "All the Mods 10 - 1.0";
     Core.v_releaseDate := 200; Core.v_hash := "aa20"; Core.v_size := 1000 |}.

Definition atm_v30 : Core.VersionDescriptor :=
  {| Core.v_id := 30; Core.v_displayName := "All the Mods 10 - 1.1";
     Core.v_releaseDate := 300; Core.v_hash := "aa30"; Core.v_size := 1100 |}.

Definition atm_catalog : gmap Z (list Core.VersionDescriptor) :=
  {[ 925201 := [atm_v20; atm_v30] ]}.

Definition atm_item : jsval :=
  JObj [("id", JNum 925201);
        ("name", JStr "All the Mods 10");
        ("summary", JStr "A kitchen sink pack");
        ("authors", JArr [JObj [("name", JStr "ATMTeam")]]);
        ("logo", JObj [("thumbnailUrl", JStr "https://media/atm10.png")]);
        ("latestFilesIndexes", JArr [JObj [("gameVersion", JStr "1.21.1")]]);
        ("links", JObj [("websiteUrl", JStr "https://www.curseforge.com/atm10")])].

Definition atm_row : PackItemProps :=
  {| id := JNum 925201;
     name := JStr "All the Mods 10";
     description := JStr "A kitchen sink pack";
     author := JStr "ATMTeam";
     iconUrl := JStr "https://media/atm10.png";
     gameVersion := JStr "1.21.1";
     websiteUrl := JStr "https://www.curseforge.com/atm10";
     onUnpack := Home_onUnpack atm_item |}.

(** A world whose core lists the versions of the sample pack and settles
    every other command as given. *)
Definition atm_world (unpack_settles : exn + jsval) (answers : list (option string)) : world :=
  {| backend := fun cmd args =>
       if String.eqb cmd "get_pack_versions"
       then Core.get_pack_versions_reply atm_catalog 925201
       else {| delivered := [{| stage := DownloadingArchive; progress := 1 # 2;
                                message := "Downloading" |}];
               settled := unpack_settles |};
     json := fun _ => inl (SyntaxError "Unexpected token");
     dialogs := answers |}.

(** * Properties of the front end *)

(** ** Running composed programs *)

Lemma run_bind {A B : Type} (p : prog A) (f : A -> prog B) (w : world) :
  run (bind p f) w =
    match result (run p w) with
    | inl e => {| trace := trace (run p w); after := after (run p w); result := inl e |}
    | inr a =>
        let r := run (f a) (after (run p w)) in
        {| trace := trace (run p w) ++ trace r; after := after r; result := result r |}
    end.
Proof.
  revert w. induction p as [a | e | X ev k IH]; intros w; simpl.
  - by destruct (run (f a) w).
  - done.
  - destruct (handle ev w) as [x w']. rewrite IH.
    by destruct (result (run (k x) w')).
Qed.

Lemma run_try_catch {A : Type} (p : prog A) (h : exn -> prog A) (w : world) :
  run (try_catch p h) w =
    match result (run p w) with
    | inr a => {| trace := trace (run p w); after := after (run p w); result := inr a |}
    | inl e =>
        let r := run (h e) (after (run p w)) in
        {| trace := trace (run p w) ++ trace r; after := after r; result := result r |}
    end.
Proof.
  revert w. induction p as [a | e | X ev k IH]; intros w; simpl.
  - done.
  - by destruct (run (h e) w).
  - destruct (handle ev w) as [x w']. rewrite IH.
    by destruct (result (run (k x) w')).
Qed.

(** Delivering progress messages to [setUnpackProgress] only updates the
    React state: it never throws and shows no notification. *)
Lemma run_deliver (msgs : list ProcessProgressResponse) (w : world) :
  run (for_each msgs (on_message setUnpackProgress)) w =
    {| trace := progress_updates msgs; after := w; result := inr tt |}.
Proof.
  induction msgs as [| m msgs IH]; simpl; [done |].
  by rewrite IH.
Qed.



Lemma alerts_of_app (t1 t2 : list obs) :
  alerts_of (t1 ++ t2) = alerts_of t1 ++ alerts_of t2.
Proof. apply omap_app. Qed.

Lemma invokes_of_app (t1 t2 : list obs) :
  invokes_of (t1 ++ t2) = invokes_of t1 ++ invokes_of t2.
Proof. apply omap_app. Qed.

Lemma alerts_of_deliver (msgs : list ProcessProgressResponse) :
  alerts_of (progress_updates msgs) = [].
Proof. induction msgs; simpl; auto. Qed.

Lemma invokes_of_deliver (msgs : list ProcessProgressResponse) :
  invokes_of (progress_updates msgs) = [].
Proof. induction msgs; simpl; auto. Qed.

(** One awaited command with [setUnpackProgress] on its channel. *)
Lemma run_invoke_on_channel (cmd : string) (args : list (string * arg)) (w : world) :
  run (invoke_on_channel cmd args setUnpackProgress) w =
    {| trace := Observed (Invoke cmd args)
                :: progress_updates (delivered (backend w cmd args));
       after := w;
       result := settled (backend w cmd args) |}.
Proof.
  unfold invoke_on_channel, perform. simpl.
  rewrite run_bind, run_deliver. simpl.
  destruct (settled (backend w cmd args)); simpl; by rewrite app_nil_r.
Qed.

Lemma run_unpack_modpack (i path : jsval) (w : world) :
  run (unpack_modpack i path setUnpackProgress) w =
    {| trace := Observed (Invoke "unpack" (unpack_args i path))
                :: progress_updates (delivered (backend w "unpack" (unpack_args i path)));
       after := w;
       result := match settled (backend w "unpack" (unpack_args i path)) with
                 | inl e => inl e
                 | inr _ => inr tt
                 end |}.
Proof.
  unfold unpack_modpack. rewrite run_bind, run_invoke_on_channel. simpl.
  destruct (settled _); simpl; by rewrite ?app_nil_r.
Qed.

Lemma run_unpack_modpack_file (file path : jsval) (w : world) :
  run (unpack_modpack_file file path setUnpackProgress) w =
    {| trace := Observed (Invoke "unpack_file" (unpack_file_args file path))
                :: progress_updates
                     (delivered (backend w "unpack_file" (unpack_file_args file path)));
       after := w;
       result := match settled (backend w "unpack_file" (unpack_file_args file path)) with
                 | inl e => inl e
                 | inr _ => inr tt
                 end |}.
Proof.
  unfold unpack_modpack_file. rewrite run_bind, run_invoke_on_channel. simpl.
  destruct (settled _); simpl; by rewrite ?app_nil_r.
Qed.

Lemma truthy_path_nonempty (s : string) : s <> "" -> truthy_path (Some s) = Some s.
Proof. intros Hs. unfold truthy_path. by rewrite (proj2 (String.eqb_neq s "") Hs). Qed.

(** The program at the head of the goal opens a file dialog; [Hd] says
    what the user answers, [Hp] that the answer is not empty. *)
Ltac answer_dialog Hd Hp :=
  cbn [bind detach_then awaited run handle];
  rewrite Hd;
  cbn [dialogs head tail mjoin option_join];
  rewrite (truthy_path_nonempty _ Hp).

(** ** Home.tsx: the unpack handlers *)

(** What the user sees after the awaited command settled. *)
Lemma trace_Home_onUnpack (item item_id : jsval) (args : list jsval) (w : world) :
  get_prop item "id" = inr item_id ->
  let path := default JUndefined (args !! 0%nat) in
  let reply := backend w "unpack" (unpack_args item_id path) in
  trace (run (Home_onUnpack item args) w) =
    Observed (Invoke "unpack" (unpack_args item_id path))
    :: progress_updates (delivered reply) ++ closing_effects (settled reply) path.
Proof.
  intros Hid path reply. unfold Home_onUnpack. fold path.
  rewrite run_bind, run_try_catch, Hid. simpl lift.
  change (bind (Ret item_id) ?f) with (f item_id). cbv beta.
  rewrite run_unpack_modpack. fold reply.
  unfold closing_effects.
  destruct (settled reply); simpl; by rewrite <- ?app_assoc.
Qed.

Lemma after_Home_onUnpack (item : jsval) (args : list jsval) (w : world) :
  after (run (Home_onUnpack item args) w) = w.
Proof.
  unfold Home_onUnpack. rewrite run_bind, run_try_catch.
  destruct (get_prop item "id") as [e | i]; simpl lift.
  - simpl. done.
  - change (bind (Ret i) ?f) with (f i). cbv beta. rewrite run_unpack_modpack.
    simpl. by destruct (settled _).
Qed.

(** The handler reads its first argument only. *)
Lemma Home_onUnpack_ignores_fileId (item path file1 file2 : jsval) :
  Home_onUnpack item [path; file1] = Home_onUnpack item [path; file2].
Proof. reflexivity. Qed.

(** A rejected "unpack" raises the failure alert and then the success
    alert; a resolved one raises the success alert alone. *)
Lemma alerts_Home_onUnpack (item item_id : jsval) (args : list jsval) (w : world) :
  get_prop item "id" = inr item_id ->
  let path := default JUndefined (args !! 0%nat) in
  alerts_of (trace (run (Home_onUnpack item args) w)) =
    match settled (backend w "unpack" (unpack_args item_id path)) with
    | inl _ => [failed_alert; finished_alert path]
    | inr _ => [finished_alert path]
    end.
Proof.
  intros Hid path. rewrite (trace_Home_onUnpack _ _ _ _ Hid). fold path.
  change (alerts_of (?o :: ?t)) with (alerts_of ([o] ++ t)).
  rewrite !alerts_of_app, alerts_of_deliver.
  unfold closing_effects. by destruct (settled _).
Qed.

Lemma alerts_Home_unpackArchive (file path : string) (rest : list (option string)) (w : world) :
  dialogs w = Some file :: Some path :: rest ->
  file <> "" -> path <> "" ->
  alerts_of (trace (run Home_unpackArchive w)) =
    match settled (backend w "unpack_file" (unpack_file_args (JStr file) (JStr path))) with
    | inl _ => [failed_alert; finished_alert (JStr path)]
    | inr _ => [finished_alert (JStr path)]
    end.
Proof.
  intros Hd Hf Hp. unfold Home_unpackArchive, save_location_dialog, perform.
  answer_dialog Hd Hf.
  cbn [bind run handle dialogs head tail mjoin option_join].
  rewrite (truthy_path_nonempty _ Hp). cbn [trace].
  rewrite run_bind, run_try_catch, run_unpack_modpack_file. cbn [backend trace after result].
  destruct (settled _); simpl;
    change (alerts_of (?o1 :: ?o2 :: ?o3 :: ?t)) with (alerts_of ([o1; o2; o3] ++ t));
    rewrite !alerts_of_app, alerts_of_deliver; reflexivity.
Qed.

(** ** PackItemComponent.tsx: the two ways to start an unpack *)

Lemma trace_detach (p : prog unit) (w : world) :
  trace (run (detach p) w) = trace (run p w).
Proof.
  unfold detach. rewrite run_try_catch.
  destruct (result (run p w)); simpl; by rewrite ?app_nil_r.
Qed.

Lemma trace_PackItem_onConfirm (props : PackItemProps) (fileId : jsval)
    (path : string) (rest : list (option string)) (w : world) :
  dialogs w = Some path :: rest -> path <> "" ->
  trace (run (PackItem_onConfirm props fileId) w) =
    save_dialog :: trace (run (onUnpack props [JStr path; fileId]) (answered w)).
Proof.
  intros Hd Hp. unfold PackItem_onConfirm, save_location_dialog, perform.
  answer_dialog Hd Hp. cbn [trace].
  rewrite trace_detach. unfold answered. by rewrite Hd.
Qed.

Lemma trace_PackItem_downloadLatest (props : PackItemProps) (files first latest : jsval)
    (path : string) (rest : list (option string)) (w : world) :
  dialogs w = Some path :: rest -> path <> "" ->
  settled (backend w "get_pack_versions" [("id", Val (id props))]) = inr files ->
  get_index files 0 = inr first ->
  get_prop first "id" = inr latest ->
  trace (run (PackItem_downloadLatest props) w) =
    save_dialog
    :: Observed (Invoke "get_pack_versions" [("id", Val (id props))])
    :: trace (run (onUnpack props [JStr path; latest]) (answered w)).
Proof.
  intros Hd Hp Hfiles Hfirst Hlatest.
  unfold PackItem_downloadLatest, save_location_dialog, get_pack_versions, invoke, perform.
  answer_dialog Hd Hp.
  cbn [bind run handle backend trace]. rewrite Hfiles. cbn [lift bind].
  rewrite Hfirst. cbn [lift bind]. rewrite Hlatest. cbn [lift bind].
  rewrite trace_detach. unfold answered. by rewrite Hd.
Qed.

(** A click on a row of the version picker. *)
Lemma trace_PackItem_pickVersion (props : PackItemProps) (version fileId : jsval)
    (path : string) (rest : list (option string)) (w : world) :
  dialogs w = Some path :: rest -> path <> "" ->
  get_prop version "id" = inr fileId ->
  trace (run (PackItem_pickVersion props version) w) =
    save_dialog
    :: Observed (SetSelectedPackId None)
    :: trace (run (onUnpack props [JStr path; fileId]) (answered w)).
Proof.
  intros Hd Hp Hid. unfold PackItem_pickVersion, versionRow_onClick.
  rewrite Hid. cbn [lift bind].
  unfold PackItem_onConfirm, save_location_dialog, perform.
  answer_dialog Hd Hp.
  unfold and_then. cbn [bind try_catch run handle trace].
  rewrite run_bind. unfold answered, save_dialog. rewrite Hd.
  destruct (result _); cbn [trace run tail]; by rewrite ?trace_detach, ?app_nil_r.
Qed.

Lemma Home_row_id (item : jsval) (props : PackItemProps) :
  Home_row item = inr props ->
  get_prop item "id" = inr (id props) /\ onUnpack props = Home_onUnpack item.
Proof.
  unfold Home_row. intros H.
  repeat match type of H with
         | match ?x with _ => _ end = _ => destruct x eqn:?; try discriminate
         end.
  injection H as <-. simpl. auto.
Qed.

(** Whatever version the picker hands over, the only command sent to the
    core is "unpack" with the pack id and the output path. *)
Lemma invokes_PackItem_pickVersion (item version fileId : jsval) (props : PackItemProps)
    (path : string) (rest : list (option string)) (w : world) :
  Home_row item = inr props ->
  dialogs w = Some path :: rest -> path <> "" ->
  get_prop version "id" = inr fileId ->
  invokes_of (trace (run (PackItem_pickVersion props version) w)) =
    [("unpack", unpack_args (id props) (JStr path))].
Proof.
  intros Hrow Hd Hp Hid. destruct (Home_row_id _ _ Hrow) as [Hitem Hun].
  rewrite (trace_PackItem_pickVersion _ _ _ _ _ _ Hd Hp Hid), Hun.
  rewrite (trace_Home_onUnpack _ _ _ _ Hitem). cbn [lookup list_lookup default].
  change (invokes_of (?a :: ?b :: ?c :: ?t ++ ?u)) with (invokes_of ([a; b; c] ++ t ++ u)).
  rewrite !invokes_of_app, invokes_of_deliver. unfold closing_effects.
  by destruct (settled _).
Qed.

(** ** PackVersionSelectModal.tsx: paging *)

Lemma js_slice_page {A : Type} (l : list A) (page : Z) :
  1 <= page ->
  let n := Z.of_nat (length l) in
  js_slice l ((page - 1) * itemsPerPage) (page * itemsPerPage) =
    take (Z.to_nat (Z.min (page * 20) n - Z.min ((page - 1) * 20) n))
         (drop (Z.to_nat (Z.min ((page - 1) * 20) n)) l).
Proof.
  intros Hp n. unfold js_slice, itemsPerPage. fold n.
  destruct ((page - 1) * 20 <? 0) eqn:H1; [apply Z.ltb_lt in H1; lia |].
  destruct (page * 20 <? 0) eqn:H2; [apply Z.ltb_lt in H2; lia |].
  reflexivity.
Qed.

Lemma pagination_total_div {A : Type} (l : list A) :
  pagination_total l = (Z.of_nat (length l) + 19) / 20.
Proof.
  unfold pagination_total, itemsPerPage, Qceiling, Qfloor, Qdiv, Qmult, Qinv, Qopp, inject_Z.
  simpl. generalize (Z.of_nat (length l)). intros n.
  rewrite Z.mul_1_r.
  Z.to_euclidean_division_equations. lia.
Qed.

(** C10: the modal shows the rows [(p-1)·20 .. min(p·20, n) - 1] of a
    non-empty version list, at most twenty of them; the pagination control
    has ceiling(n/20) pages (the least [t] with [n <= 20·t]); and an empty
    list leaves the rows shown before in place. *)
Theorem version_page_is_slice {A : Type} (fileItems pageItems : list A) (page : Z) :
  fileItems <> [] ->
  1 <= page ->
  let n := Z.of_nat (length fileItems) in
  let shown := pageItems_effect page fileItems pageItems in
  (forall i : nat,
      shown !! i =
        if decide ((page - 1) * 20 + Z.of_nat i < Z.min (page * 20) n)
        then fileItems !! Z.to_nat ((page - 1) * 20 + Z.of_nat i)
        else None)
  /\ (length shown <= 20)%nat
  /\ (20 * (pagination_total fileItems - 1) < n <= 20 * pagination_total fileItems)
  /\ pageItems_effect page [] pageItems = pageItems.
Proof.
  intros Hne Hp n shown.
  assert (Hn : 0 < n) by (destruct fileItems; [done | subst n; simpl; lia]).
  assert (Hshown : shown =
            take (Z.to_nat (Z.min (page * 20) n - Z.min ((page - 1) * 20) n))
                 (drop (Z.to_nat (Z.min ((page - 1) * 20) n)) fileItems)).
  { subst shown. unfold pageItems_effect. fold n.
    destruct (n =? 0) eqn:H0; [apply Z.eqb_eq in H0; lia |].
    by apply js_slice_page. }
  repeat split.
  - intros i. rewrite Hshown. case_decide as Hi.
    + rewrite lookup_take_lt by lia. rewrite lookup_drop. f_equal. lia.
    + destruct (decide ((page - 1) * 20 < n)) as [Hlt | Hge].
      * apply lookup_take_ge. lia.
      * apply lookup_take_ge. lia.
  - rewrite Hshown, length_take. lia.
  - rewrite pagination_total_div. fold n. Z.to_euclidean_division_equations. lia.
  - rewrite pagination_total_div. fold n. Z.to_euclidean_division_equations. lia.
Qed.

(** Page 3 of a list of 45 versions. *)
Lemma version_page_is_slice_witness :
  let fileItems := seq 0 45 in
  let shown := pageItems_effect 3 fileItems [7; 8]%nat in
  (forall i : nat,
      shown !! i =
        if decide ((3 - 1) * 20 + Z.of_nat i < Z.min (3 * 20) (Z.of_nat (length fileItems)))
        then fileItems !! Z.to_nat ((3 - 1) * 20 + Z.of_nat i)
        else None)
  /\ (length shown <= 20)%nat
  /\ (20 * (pagination_total fileItems - 1) < Z.of_nat (length fileItems)
      <= 20 * pagination_total fileItems)
  /\ pageItems_effect 3 [] [7; 8]%nat = [7; 8]%nat.
Proof.
  apply (version_page_is_slice (seq 0 45) [7; 8]%nat 3); [discriminate | lia].
Defined.

(** ** curseforge.ts: searching *)

(** C9: [search_modpacks] always resolves. When the invocation is
    rejected or [JSON.parse] throws, it resolves to the empty object,
    whose [data] and [pagination] read as [undefined]. *)
Theorem search_modpacks_never_throws (query : string) (w : world) :
  result (run (search_modpacks query) w) =
    inr (match settled (backend w "search_modpacks" [("query", Val (JStr query))]) with
         | inl _ => JObj []
         | inr response =>
             match json w response with
             | inl _ => JObj []
             | inr parsed => parsed
             end
         end)
  /\ get_prop (JObj []) "data" = inr JUndefined
  /\ get_prop (JObj []) "pagination" = inr JUndefined.
Proof.
  split; [| split; reflexivity].
  unfold search_modpacks, invoke, perform. cbn [bind try_catch run handle result].
  destruct (settled (backend w "search_modpacks" _)) as [e | response]; [reflexivity |].
  cbn [lift bind try_catch run handle result].
  destruct (json w response); reflexivity.
Qed.

(** The row list of [Home] cannot be built from the empty object: the
    consumer calls [.map] on [undefined]. *)
Lemma Home_rows_after_failed_search :
  Home_rows (Some (JObj [])) = inl (TypeError "Cannot read properties (reading 'map')").
Proof. reflexivity. Qed.

(** * The front end against the core *)

(** ** The version listing of the core *)

#[local] Instance newer_first_trans : Transitive Core.newer_first.
Proof. unfold Core.newer_first. intros a b c. lia. Qed.

#[local] Instance newer_first_total : Total Core.newer_first.
Proof. unfold Core.newer_first. intros a b. lia. Qed.

Lemma listVersions_sorted (catalog : gmap Z (list Core.VersionDescriptor)) (pack : Z) :
  StronglySorted Core.newer_first (Core.listVersions catalog pack).
Proof. apply (StronglySorted_merge_sort _). Qed.

Lemma listVersions_Permutation (catalog : gmap Z (list Core.VersionDescriptor)) (pack : Z) :
  Core.listVersions catalog pack ≡ₚ default [] (catalog !! pack).
Proof. apply merge_sort_Permutation. Qed.

Lemma listVersions_head_most_recent (catalog : gmap Z (list Core.VersionDescriptor))
    (pack : Z) (latest : Core.VersionDescriptor) (others : list Core.VersionDescriptor) :
  Core.listVersions catalog pack = latest :: others ->
  forall v, v ∈ default [] (catalog !! pack) ->
    Core.v_releaseDate v <= Core.v_releaseDate latest.
Proof.
  intros Hl v Hv. rewrite <- listVersions_Permutation, Hl in Hv.
  pose proof (listVersions_sorted catalog pack) as Hs. rewrite Hl in Hs.
  apply StronglySorted_inv in Hs as [_ Hall].
  apply elem_of_cons in Hv as [-> | Hv]; [lia |].
  rewrite Forall_forall in Hall. by apply Hall.
Qed.

Lemma unpack_target_without_fileId (catalog : gmap Z (list Core.VersionDescriptor))
    (pack : Z) (path : string) :
  Core.unpack_target catalog (unpack_args (JNum pack) (JStr path)) =
    Some (Core.select_version catalog pack None).
Proof. reflexivity. Qed.

(** C4: for a pack with a non-empty version listing, the listing is
    ordered most-recent first, "Download Latest" hands the id of its
    first element to [onUnpack], and the file the core unpacks for the
    command that follows is that first element: the most recent version. *)
Theorem download_latest_unpacks_most_recent
    (catalog : gmap Z (list Core.VersionDescriptor)) (pack : Z)
    (latest : Core.VersionDescriptor) (others : list Core.VersionDescriptor)
    (item : jsval) (props : PackItemProps)
    (path : string) (rest : list (option string)) (w : world) :
  Core.listVersions catalog pack = latest :: others ->
  Home_row item = inr props ->
  id props = JNum pack ->
  dialogs w = Some path :: rest ->
  path <> "" ->
  backend w "get_pack_versions" [("id", Val (JNum pack))] =
    Core.get_pack_versions_reply catalog pack ->
  StronglySorted Core.newer_first (Core.listVersions catalog pack)
  /\ (forall v, v ∈ default [] (catalog !! pack) ->
        Core.v_releaseDate v <= Core.v_releaseDate latest)
  /\ (forall row : PackItemProps, id row = JNum pack ->
        trace (run (PackItem_downloadLatest row) w) =
          save_dialog
          :: Observed (Invoke "get_pack_versions" [("id", Val (JNum pack))])
          :: trace (run (onUnpack row [JStr path; JNum (Core.v_id latest)]) (answered w)))
  /\ invokes_of (trace (run (PackItem_downloadLatest props) w)) =
       [("get_pack_versions", [("id", Val (JNum pack))]);
        ("unpack", unpack_args (JNum pack) (JStr path))]
  /\ Core.unpack_target catalog (unpack_args (JNum pack) (JStr path)) =
       Some (inr (Core.v_id latest)).
Proof.
  intros Hl Hrow Hid Hd Hp Hback.
  assert (Hclick : forall row : PackItemProps, id row = JNum pack ->
            trace (run (PackItem_downloadLatest row) w) =
              save_dialog
              :: Observed (Invoke "get_pack_versions" [("id", Val (JNum pack))])
              :: trace (run (onUnpack row [JStr path; JNum (Core.v_id latest)]) (answered w))).
  { intros row Hrid.
    rewrite (trace_PackItem_downloadLatest row
               (JArr (Core.encode_version <$> Core.listVersions catalog pack))
               (Core.encode_version latest) (JNum (Core.v_id latest)) path rest w Hd Hp).
    - by rewrite Hrid.
    - by rewrite Hrid, Hback.
    - by rewrite Hl.
    - reflexivity. }
  split; [apply listVersions_sorted |].
  split; [by apply listVersions_head_most_recent with others |].
  split; [exact Hclick |].
  split.
  - rewrite (Hclick props Hid).
    destruct (Home_row_id _ _ Hrow) as [Hitem ->]. rewrite Hid in Hitem.
    rewrite (trace_Home_onUnpack _ _ _ _ Hitem). cbn [lookup list_lookup default].
    change (invokes_of (?a :: ?b :: ?c :: ?t ++ ?u)) with (invokes_of ([a; b; c] ++ t ++ u)).
    rewrite !invokes_of_app, invokes_of_deliver. unfold closing_effects.
    by destruct (settled _).
  - rewrite unpack_target_without_fileId. unfold Core.select_version. by rewrite Hl.
Qed.

(** "Download Latest" on the sample pack. *)
Lemma download_latest_unpacks_most_recent_witness :
  Core.listVersions atm_catalog 925201 = [atm_v30; atm_v20]
  /\ invokes_of (trace (run (PackItem_downloadLatest atm_row)
                          (atm_world (inr JNull) [Some "C:/packs/atm"]))) =
       [("get_pack_versions", [("id", Val (JNum 925201))]);
        ("unpack", unpack_args (JNum 925201) (JStr "C:/packs/atm"))]
  /\ Core.unpack_target atm_catalog (unpack_args (JNum 925201) (JStr "C:/packs/atm")) =
       Some (inr 30).
Proof.
  pose proof (download_latest_unpacks_most_recent atm_catalog 925201 atm_v30 [atm_v20]
                atm_item atm_row "C:/packs/atm" []
                (atm_world (inr JNull) [Some "C:/packs/atm"])
                eq_refl eq_refl eq_refl eq_refl ltac:(discriminate) eq_refl)
    as (_ & _ & _ & Hinvokes & Htarget).
  split; [reflexivity |]. split; [exact Hinvokes | exact Htarget].
Defined.

(** For a pack without versions [files[0]] is [undefined]: the click
    handler throws on [.id] and no unpack command is sent. *)
Example download_latest_without_versions :
  let w := {| backend := fun _ _ => {| delivered := []; settled := inr (JArr []) |};
              json := fun _ => inl (SyntaxError "Unexpected token");
              dialogs := [Some "C:/packs/atm"] |} in
  result (run (PackItem_downloadLatest atm_row) w)
  = inl (TypeError "Cannot read properties (reading 'id')")
  /\ invokes_of (trace (run (PackItem_downloadLatest atm_row) w))
     = [("get_pack_versions", [("id", Val (JNum 925201))])].
Proof. split; vm_compute; reflexivity. Qed.

(** C1, at the failing input: the user opens the version picker of the
    sample pack and picks version 20, the older of its two versions. The
    only command sent to the core names the pack and the output path; it
    carries no file id, and the core falls back to version 30. *)
Theorem picked_version_never_reaches_core :
  let w := atm_world (inr JNull) [Some "C:/packs/atm"] in
  let sent := invokes_of (trace (run (PackItem_pickVersion atm_row
                                        (Core.encode_version atm_v20)) w)) in
  Home_row atm_item = inr atm_row
  /\ get_prop (Core.encode_version atm_v20) "id" = inr (JNum 20)
  /\ sent = [("unpack", [("id", Val (JNum 925201));
                         ("output", Val (JStr "C:/packs/atm"));
                         ("onEvent", Chan)])]
  /\ (Core.req_fileId <$> Core.unpack_request (unpack_args (JNum 925201) (JStr "C:/packs/atm")))
     = Some None
  /\ Core.unpack_target atm_catalog (unpack_args (JNum 925201) (JStr "C:/packs/atm"))
     = Some (inr 30).
Proof. repeat split; vm_compute; reflexivity. Qed.

(** C5, at the failing input: the core rejects the command. Both unpack
    handlers then raise two notifications, the failure alert and after it
    the alert that the modpack was unpacked successfully. *)
Theorem failed_unpack_raises_two_alerts :
  let rejected := inl (Rejected "RequiredFileFailed") in
  let by_id := run (Home_onUnpack atm_item [JStr "C:/packs/atm"; JNum 20])
                   (atm_world rejected []) in
  let by_file := run Home_unpackArchive
                     (atm_world rejected [Some "C:/downloads/atm.zip"; Some "C:/packs/atm"]) in
  alerts_of (trace by_id) = [failed_alert; finished_alert (JStr "C:/packs/atm")]
  /\ alerts_of (trace by_file) = [failed_alert; finished_alert (JStr "C:/packs/atm")]
  /\ alert_message <$> alerts_of (trace by_id) =
       ["Failed to unpack modpack"; "Modpack unpacked successfully."].
Proof. repeat split; vm_compute; reflexivity. Qed.

(** The "Download" button of the older component sends the same command
    as the version picker does. *)
Example download_sends_pack_id_and_path :
  invokes_of (trace (run (PackItem_download atm_row)
                       (atm_world (inr JNull) [Some "C:/packs/atm"])))
  = [("unpack", unpack_args (JNum 925201) (JStr "C:/packs/atm"))].
Proof. vm_compute; reflexivity. Qed.

(** A run that succeeds raises the success alert alone. *)
Example successful_unpack_raises_one_alert :
  alerts_of (trace (run (Home_onUnpack atm_item [JStr "C:/packs/atm"; JNum 20])
                        (atm_world (inr JNull) [])))
  = [finished_alert (JStr "C:/packs/atm")].
Proof. vm_compute; reflexivity. Qed.

(** * Properties of the core model *)

Module CoreProps.
Import Core.

(** ** Archive Reader: the path traversal guard *)

Lemma push_plain (stack : list string) (seg : string) :
  plain seg -> push_segment stack seg = seg :: stack.
Proof.
  intros (H1 & H2 & H3). unfold push_segment.
  rewrite bool_decide_eq_false_2 by (intros [? | ?]; congruence).
  by rewrite bool_decide_eq_false_2 by done.
Qed.

Lemma foldl_push_plain (stack rel : list string) :
  Forall plain rel -> foldl push_segment stack rel = rev rel ++ stack.
Proof.
  intros H. revert stack. induction H as [| seg rel Hseg _ IH]; intros stack; [done |].
  simpl. rewrite push_plain, IH by done. by rewrite <- app_assoc.
Qed.

(** A relative path of plain segments lands where it says, below the
    resolved destination directory. *)
Lemma destination_plain (destDir rel : list string) :
  Forall plain rel -> destination destDir rel = resolve destDir ++ rel.
Proof.
  intros H. unfold destination, resolve.
  rewrite foldl_app, foldl_push_plain by done.
  by rewrite rev_app_distr, rev_involutive.
Qed.

Lemma escapes_plain (destDir rel : list string) :
  Forall plain rel -> escapes destDir rel = false.
Proof.
  intros H. unfold escapes. rewrite destination_plain by done.
  rewrite bool_decide_eq_true_2; [done |]. by apply prefix_app_r.
Qed.












(** ** Download Orchestrator *)

Section Orchestrator.

Variable attempt : ModFileEntry -> nat -> AttemptResult.
Variable maxAttempts : nat.

Local Abbreviation report_of := (Core.report_of attempt maxAttempts).
Local Abbreviation success := (Core.success attempt maxAttempts).
Local Abbreviation optional_failure := (Core.optional_failure attempt maxAttempts).
Local Abbreviation required_failure := (Core.required_failure attempt maxAttempts).
Local Abbreviation pool_inv := (Core.pool_inv attempt maxAttempts).


Lemma report_of_snoc (finished : list ModFileEntry) (entry : ModFileEntry) :
  report_of (finished ++ [entry]) =
    record_outcome entry (fetch_entry attempt maxAttempts entry) (report_of finished).
Proof. unfold report_of. by rewrite foldl_app. Qed.

Lemma report_of_counts (finished : list ModFileEntry) :
  succeeded (report_of finished) = length (filter success finished)
  /\ skipped (report_of finished) = length (filter optional_failure finished)
  /\ length (hardFailures (report_of finished)) = length (filter required_failure finished).
Proof.
  induction finished as [| entry finished IH] using rev_ind; [done |].
  rewrite report_of_snoc, !filter_app, !length_app.
  destruct IH as (IH1 & IH2 & IH3).
  rewrite <- IH1, <- IH2, <- IH3, !filter_cons, !filter_nil.
  unfold record_outcome, success, optional_failure, required_failure, fails.
  destruct (fetch_entry attempt maxAttempts entry), (required entry); simpl;
    rewrite ?length_app; simpl; lia.
Qed.

Lemma filter_length_Permutation (P : ModFileEntry -> bool) (l1 l2 : list ModFileEntry) :
  l1 ≡ₚ l2 -> length (filter P l1) = length (filter P l2).
Proof. intros H. by rewrite H. Qed.

Lemma exhausted_attempts_fail (entry : ModFileEntry) (more k : nat) :
  (forall j : nat, (k <= j <= k + more)%nat ->
     exists e, attempt entry j = AttemptFailed e /\ retryable e = true) ->
  exists e, attempts_from attempt entry k more = AttemptFailed e.
Proof.
  revert k. induction more as [| more IH]; intros k H; simpl.
  - destruct (H k) as (e & -> & _); [lia |]. by exists e.
  - destruct (H k) as (e & -> & ->); [lia |]. apply IH. intros j Hj. apply H. lia.
Qed.

Lemma exhausts_retries_fails (entry : ModFileEntry) :
  exhausts_retries attempt maxAttempts entry -> fails attempt maxAttempts entry = true.
Proof.
  intros H. unfold fails, fetch_entry.
  destruct (exhausted_attempts_fail entry (Nat.pred maxAttempts) 0) as [e ->]; [| done].
  intros j Hj. apply H. lia.
Qed.

Lemma run_outcome_failed (r : DownloadReport) :
  run_outcome r = inl RequiredFileFailed <-> (0 < length (hardFailures r))%nat.
Proof.
  unfold run_outcome. destruct (hardFailures r); simpl; split; intros; try done; lia.
Qed.

Lemma run_outcome_ok (r : DownloadReport) :
  length (hardFailures r) = 0%nat -> run_outcome r = inr r.
Proof. unfold run_outcome. by destruct (hardFailures r). Qed.

Lemma filter_length_pos (P : ModFileEntry -> bool) (l : list ModFileEntry) :
  (0 < length (filter P l))%nat <-> exists e, e ∈ l /\ P e = true.
Proof.
  split.
  - intros H. destruct (filter P l) as [| e rest] eqn:Hf; [simpl in H; lia |].
    assert (He : e ∈ filter P l) by (rewrite Hf; left).
    apply list_elem_of_filter in He as [HP He]. exists e. split; [done |].
    by apply Is_true_true.
  - intros (e & He & HP).
    assert (e ∈ filter P l) as Hin
      by (apply list_elem_of_filter; split; [by apply Is_true_true | done]).
    destruct (filter P l); [by apply elem_of_nil in Hin | simpl; lia].
Qed.

Lemma pool_inv_init (limit : nat) (entries : list ModFileEntry) :
  pool_inv limit entries (pool_init entries).
Proof. split; [simpl; lia |]. by exists []. Qed.

Lemma pool_inv_step (limit : nat) (entries : list ModFileEntry) (a : Action) (p p' : Pool) :
  pool_inv limit entries p ->
  pool_step attempt maxAttempts limit a p = Some p' ->
  pool_inv limit entries p'.
Proof.
  intros (Hlen & finished & Hrep & Hperm) Hstep.
  destruct a as [| i]; simpl in Hstep.
  - destruct (queue p) as [| entry rest] eqn:Hq; [done |].
    case_bool_decide as Hfree; [| done]. injection Hstep as <-.
    unfold pool_inv. simpl.
    split; [rewrite length_app; simpl; lia |].
    exists finished. split; [done |].
    by rewrite <- Hperm, <- !app_assoc.
  - destruct (inflight p !! i) as [entry |] eqn:Hi; [| done].
    injection Hstep as <-. unfold pool_inv. simpl. split.
    + rewrite length_delete by eauto. lia.
    + exists (finished ++ [entry]). split; [by rewrite report_of_snoc, Hrep |].
      rewrite <- Hperm, <- !app_assoc. apply Permutation_app_head. simpl.
      by rewrite (delete_Permutation _ _ _ Hi) at 2.
Qed.

Lemma pool_inv_run (limit : nat) (entries : list ModFileEntry) (schedule : list Action)
    (p p' : Pool) :
  pool_inv limit entries p ->
  pool_run attempt maxAttempts limit schedule p = Some p' ->
  pool_inv limit entries p'.
Proof.
  revert p. induction schedule as [| a schedule IH]; intros p Hinv Hrun; simpl in Hrun.
  - by injection Hrun as <-.
  - destruct (pool_step attempt maxAttempts limit a p) as [p1 |] eqn:Hstep; [| done].
    eapply IH; [| done]. by eapply pool_inv_step.
Qed.

Lemma pool_run_app (limit : nat) (s1 s2 : list Action) (p : Pool) :
  pool_run attempt maxAttempts limit (s1 ++ s2) p =
    pool_run attempt maxAttempts limit s1 p ≫= pool_run attempt maxAttempts limit s2.
Proof.
  revert p. induction s1 as [| a s1 IH]; intros p; simpl; [done |].
  by destruct (pool_step attempt maxAttempts limit a p).
Qed.

(** Letting the workers in flight finish, oldest first. *)
Lemma pool_drain (limit : nat) (p : Pool) :
  exists p', pool_run attempt maxAttempts limit (replicate (length (inflight p)) (Finish 0)) p
             = Some p'
             /\ inflight p' = [] /\ queue p' = queue p.
Proof.
  destruct p as [q fl r]. revert r. induction fl as [| entry fl IH]; intros r; simpl.
  - by eexists.
  - destruct (IH (record_outcome entry (fetch_entry attempt maxAttempts entry) r))
      as (p' & Hrun & Hfl & Hq).
    exists p'. done.
Qed.

Lemma pool_sequential (limit : nat) (q : list ModFileEntry) (r : DownloadReport) :
  (0 < limit)%nat ->
  exists r', pool_run attempt maxAttempts limit (sequential_schedule q)
               {| queue := q; inflight := []; report := r |}
             = Some {| queue := []; inflight := []; report := r' |}.
Proof.
  intros Hlimit. revert r. induction q as [| entry q IH]; intros r.
  - by exists r.
  - unfold sequential_schedule. simpl.
    rewrite bool_decide_eq_true_2 by done. simpl. apply IH.
Qed.

(** Every run of the pool can be brought to its terminal outcome. *)
Lemma pool_can_finish (limit : nat) (p : Pool) :
  (0 < limit)%nat ->
  exists schedule p',
    pool_run attempt maxAttempts limit schedule p = Some p'
    /\ is_Some (pool_result p').
Proof.
  intros Hlimit. destruct (pool_drain limit p) as (p1 & Hrun1 & Hfl & Hq).
  destruct p1 as [q1 fl1 r1]. simpl in *. subst.
  destruct (pool_sequential limit (queue p) r1 Hlimit) as (r' & Hrun2).
  eexists (_ ++ _), _. rewrite pool_run_app, Hrun1. simpl. split; [exact Hrun2 | done].
Qed.

End Orchestrator.

Lemma downloadAll_report (attempt : ModFileEntry -> nat -> AttemptResult) (maxAttempts : nat)
    (entries : list ModFileEntry) (destDir : list string) (fs : gmap (list string) string) :
  (downloadAll attempt maxAttempts entries destDir fs).2 = report_of attempt maxAttempts entries.
Proof.
  unfold downloadAll, report_of. generalize empty_report. revert fs.
  induction entries as [| entry entries IH]; intros fs r; [done |].
  simpl. apply IH.
Qed.

(** C8: with a worker pool of any positive size and under any schedule,
    the terminal outcome exists only when nothing is queued or in flight;
    every optional entry that ultimately failed is counted as skipped and
    does not fail the run; the run fails with [RequiredFileFailed]
    exactly when a required entry ultimately failed, in particular when
    one exhausted its retries. Every run can be brought to that outcome. *)
Theorem required_failure_fails_run_optional_is_skipped
    (attempt : ModFileEntry -> nat -> AttemptResult) (maxAttempts limit : nat)
    (entries : list ModFileEntry) (schedule : list Action) (p : Pool) :
  (0 < limit)%nat ->
  pool_run attempt maxAttempts limit schedule (pool_init entries) = Some p ->
  (length (inflight p) <= limit)%nat
  /\ (exists schedule' p',
        pool_run attempt maxAttempts limit schedule' p = Some p'
        /\ is_Some (pool_result p'))
  /\ forall outcome,
       pool_result p = Some outcome ->
       inflight p = [] /\ queue p = []
       /\ skipped (report p)
          = length (filter (optional_failure attempt maxAttempts) entries)
       /\ succeeded (report p) = length (filter (success attempt maxAttempts) entries)
       /\ (outcome = inl RequiredFileFailed <->
           exists e, e ∈ entries /\ required e = true /\ fails attempt maxAttempts e = true)
       /\ ((forall e, e ∈ entries -> fails attempt maxAttempts e = true -> required e = false) ->
           outcome = inr (report p))
       /\ (forall e, e ∈ entries -> required e = true ->
             exhausts_retries attempt maxAttempts e ->
             outcome = inl RequiredFileFailed).
Proof.
  intros Hlimit Hrun.
  pose proof (pool_inv_run attempt maxAttempts limit entries schedule _ _
                (pool_inv_init attempt maxAttempts limit entries) Hrun)
    as (Hlen & finished & Hrep & Hperm).
  split; [done |]. split; [by apply pool_can_finish |].
  intros outcome Hout. unfold pool_result in Hout.
  destruct (queue p) eqn:Hq; [| done]. destruct (inflight p) eqn:Hfl; [| done].
  injection Hout as <-. rewrite !app_nil_r in Hperm.
  destruct (report_of_counts attempt maxAttempts finished) as (Hs & Hk & Hh).
  assert (Hfailed : run_outcome (report p) = inl RequiredFileFailed <->
            exists e, e ∈ entries /\ required e = true /\ fails attempt maxAttempts e = true).
  { rewrite run_outcome_failed, Hrep, Hh, filter_length_pos.
    split; intros (e & He & Hp); exists e.
    - rewrite <- Hperm. split; [done |].
      unfold required_failure in Hp. by apply andb_true_iff in Hp.
    - rewrite Hperm. split; [done |].
      unfold required_failure. apply andb_true_iff. tauto. }
  split; [done |]. split; [done |].
  split; [rewrite Hrep, Hk; by apply filter_length_Permutation |].
  split; [rewrite Hrep, Hs; by apply filter_length_Permutation |].
  split; [done |]. split.
  - intros Hopt. apply run_outcome_ok. rewrite Hrep, Hh.
    destruct (length (filter (required_failure attempt maxAttempts) finished))
      as [| n] eqn:Hn; [done | exfalso].
    assert (Hpos : (0 < length (filter (required_failure attempt maxAttempts) finished))%nat)
      by lia.
    apply filter_length_pos in Hpos as (e & He & Hp).
    unfold required_failure in Hp. apply andb_true_iff in Hp as [Hr Hfail].
    rewrite Hperm in He. specialize (Hopt e He Hfail). congruence.
  - intros e He Hreq Hex. apply Hfailed. exists e.
    split; [done |]. split; [done |]. by apply exhausts_retries_fails.
Qed.

(** ** The sample packs *)

(** The scenario of the specification: an entry ["../../evil"] below the
    overrides prefix; the run aborts and leaves the files in place. *)
Example evil_archive_is_refused :
  let fs : gmap (list string) string := {[ ["home"; "notes.txt"] := "keep" ]} in
  openManifest sample_reader (Some evil_archive) = inr overrides_only_manifest
  /\ escapes sample_output [".."; ".."; "evil"] = true
  /\ destination sample_output [".."; ".."; "evil"] = ["home"; "evil"]
  /\ extractSubtree (Some evil_archive) ["overrides"] sample_output fs
     = (fs, inl UnsafeEntryPath)
  /\ unpackFromArchive sample_reader sample_attempt 3 (Some evil_archive) sample_output fs
     = (fs, inl UnsafeEntryPath).
Proof. repeat split; vm_compute; reflexivity. Qed.

(** The scenario of the specification: three required entries and an
    optional one that is not found; two workers. *)
Lemma required_failure_fails_run_optional_is_skipped_witness :
  exists p,
    pool_run sample_attempt 3 2 sample_schedule (pool_init sample_entries) = Some p
    /\ pool_result p = Some (inr (report p))
    /\ skipped (report p) = 1%nat
    /\ succeeded (report p) = 3%nat.
Proof.
  eexists. split; [reflexivity |].
  match goal with
  | |- pool_result ?p = _ /\ _ =>
      pose proof (required_failure_fails_run_optional_is_skipped sample_attempt 3 2
                    sample_entries sample_schedule p ltac:(lia) eq_refl)
        as (_ & _ & Hterminal)
  end.
  destruct (Hterminal _ eq_refl) as (_ & _ & Hskipped & Hsucceeded & _).
  split; [reflexivity |]. split; [exact Hskipped | exact Hsucceeded].
Defined.

(** A required entry whose every attempt meets an unavailable catalog
    exhausts its three attempts and fails the run, once the other entries
    have finished. *)
Example required_entry_without_catalog_fails_run :
  let attempt entry k :=
    if (projectId entry =? 2)%Z then AttemptFailed CatalogUnavailable
    else sample_attempt entry k in
  exhausts_retries attempt 3 {| projectId := 2; fileId := 22; required := true |}
  /\ (pool_result <$> pool_run attempt 3 2 sample_schedule (pool_init sample_entries))
     = Some (Some (inl RequiredFileFailed))
  /\ (pool_result <$> pool_run attempt 3 2 (take 7 sample_schedule) (pool_init sample_entries))
     = Some None.
Proof.
  split; [| split; vm_compute; reflexivity].
  intros k _. exists CatalogUnavailable. split; reflexivity.
Qed.

End CoreProps.

(** * Further properties of the front end *)

(** ** PackVersionSelectModal.tsx: the pages as a whole *)

(** From page 1 on, a page of a non-empty list is the chunk of twenty
    items that starts at [(page - 1) * 20]. *)
Lemma page_is_chunk {A : Type} (fileItems pageItems : list A) (page : nat) :
  fileItems <> [] ->
  pageItems_effect (Z.of_nat (S page)) fileItems pageItems =
    take 20 (drop (20 * page) fileItems).
Proof.
  intros Hne. unfold pageItems_effect.
  destruct (Z.of_nat (length fileItems) =? 0) eqn:H0.
  { apply Z.eqb_eq in H0. destruct fileItems; [done | simpl in H0; lia]. }
  rewrite js_slice_page by lia.
  destruct (decide (20 * page < length fileItems)%nat) as [Hin | Hout].
  - replace (Z.to_nat (Z.min (Z.of_nat (S page) * 20) (Z.of_nat (length fileItems))
                       - Z.min ((Z.of_nat (S page) - 1) * 20) (Z.of_nat (length fileItems))))
      with (Nat.min 20 (length (drop (20 * page) fileItems)))
      by (rewrite length_drop; lia).
    replace (Z.to_nat (Z.min ((Z.of_nat (S page) - 1) * 20) (Z.of_nat (length fileItems))))
      with (20 * page)%nat by lia.
    rewrite <- take_take. by rewrite (take_ge (drop _ _) (length _)).
  - rewrite (drop_ge fileItems (20 * page)) by lia.
    rewrite (drop_ge fileItems) by lia.
    by rewrite !take_nil.
Qed.

Lemma chunks_join {A : Type} (k : nat) (l : list A) :
  (length l <= 20 * k)%nat ->
  mjoin ((fun i => take 20 (drop (20 * i) l)) <$> seq 0 k) = l.
Proof.
  revert l. induction k as [| k IH]; intros l Hlen.
  - destruct l; [done | simpl in Hlen; lia].
  - cbn [seq fmap list_fmap mjoin list_join]. rewrite <- fmap_S_seq, <- list_fmap_compose.
    rewrite (list_fmap_ext _ (fun i => take 20 (drop (20 * i) (drop 20 l))) (seq 0 k)).
    + rewrite IH by (rewrite length_drop; lia).
      change (drop (20 * 0) l) with l. apply take_drop.
    + intros _ i _. simpl. rewrite drop_drop. f_equal. f_equal. lia.
Qed.

(** X1: the pages of the version picker, page 1 up to the total the
    pagination control shows, put one after the other give the fetched
    list back: every version is on exactly one page, in order. *)
Theorem pages_cover_the_list {A : Type} (fileItems pageItems : list A) :
  mjoin ((fun page : nat => pageItems_effect (Z.of_nat page) fileItems pageItems)
           <$> seq 1 (Z.to_nat (pagination_total fileItems)))
  = fileItems.
Proof.
  destruct fileItems as [| a l] eqn:Hl; [reflexivity |]. rewrite <- Hl.
  assert (Hne : fileItems <> []) by (rewrite Hl; discriminate).
  rewrite <- fmap_S_seq, <- list_fmap_compose.
  rewrite (list_fmap_ext _ (fun i => take 20 (drop (20 * i) fileItems))
             (seq 0 (Z.to_nat (pagination_total fileItems)))).
  - apply chunks_join. rewrite pagination_total_div.
    generalize (length fileItems). intros n.
    pose proof (Z.div_mod (Z.of_nat n + 19) 20 ltac:(lia)).
    pose proof (Z.mod_pos_bound (Z.of_nat n + 19) 20 ltac:(lia)). lia.
  - intros _ i _. simpl. by apply page_is_chunk.
Qed.

(** X2: page [p >= 1] of a non-empty list of [n] versions has
    [min 20 (n - 20 (p - 1))] rows: twenty on every page before the last
    one, at least one on the last page, none on a page after it. *)
Theorem page_sizes {A : Type} (fileItems pageItems : list A) (page : Z) :
  fileItems <> [] ->
  1 <= page ->
  let n := Z.of_nat (length fileItems) in
  let shown := pageItems_effect page fileItems pageItems in
  Z.of_nat (length shown) = Z.max 0 (Z.min 20 (n - 20 * (page - 1)))
  /\ (page < pagination_total fileItems -> length shown = 20%nat)
  /\ (page = pagination_total fileItems -> (1 <= length shown <= 20)%nat)
  /\ (pagination_total fileItems < page -> shown = []).
Proof.
  intros Hne Hp n shown.
  assert (Hshown : shown = take 20 (drop (20 * Z.to_nat (page - 1)) fileItems)).
  { subst shown. replace page with (Z.of_nat (S (Z.to_nat (page - 1)))) at 1 by lia.
    by apply page_is_chunk. }
  assert (Hlen : Z.of_nat (length shown) = Z.max 0 (Z.min 20 (n - 20 * (page - 1)))).
  { rewrite Hshown, length_take, length_drop. subst n. lia. }
  assert (Htotal : 20 * (pagination_total fileItems - 1) < n <= 20 * pagination_total fileItems).
  { rewrite pagination_total_div. fold n.
    pose proof (Z.div_mod (n + 19) 20 ltac:(lia)).
    pose proof (Z.mod_pos_bound (n + 19) 20 ltac:(lia)). lia. }
  split; [exact Hlen |]. split; [| split].
  - intros Hlt. lia.
  - intros Heq. lia.
  - intros Hgt. apply length_zero_iff_nil. lia.
Qed.

Lemma page_sizes_witness :
  let fileItems := seq 0 45 in
  (length (pageItems_effect 1 fileItems []) = 20%nat)
  /\ (1 <= length (pageItems_effect 3 fileItems []) <= 20)%nat
  /\ pageItems_effect 4 fileItems [7%nat] = [].
Proof.
  intros fileItems.
  pose proof (page_sizes fileItems [] 1 ltac:(discriminate) ltac:(lia)) as (_ & H1 & _ & _).
  pose proof (page_sizes fileItems [] 3 ltac:(discriminate) ltac:(lia)) as (_ & _ & H3 & _).
  pose proof (page_sizes fileItems [7%nat] 4 ltac:(discriminate) ltac:(lia)) as (_ & _ & _ & H4).
  split; [apply H1; vm_compute; reflexivity |].
  split; [apply H3; vm_compute; reflexivity | apply H4; vm_compute; reflexivity].
Defined.

(** X3: when the pagination control is hidden (fewer than twenty
    versions) the list has a single page. Page 1 shows every fetched
    version; the page state is never reset, and on any later page it may
    still hold no version is shown at all. *)
Theorem hidden_pagination_pages {A : Type} (fileItems pageItems : list A) (page : Z) :
  fileItems <> [] ->
  pagination_hidden fileItems = true ->
  pagination_total fileItems = 1
  /\ pageItems_effect 1 fileItems pageItems = fileItems
  /\ (2 <= page -> pageItems_effect page fileItems pageItems = []).
Proof.
  intros Hne Hhidden. unfold pagination_hidden, itemsPerPage in Hhidden.
  apply Z.ltb_lt in Hhidden.
  assert (Hpos : (0 < length fileItems)%nat) by (destruct fileItems; [done | simpl; lia]).
  split; [| split].
  - rewrite pagination_total_div.
    pose proof (Z.div_mod (Z.of_nat (length fileItems) + 19) 20 ltac:(lia)).
    pose proof (Z.mod_pos_bound (Z.of_nat (length fileItems) + 19) 20 ltac:(lia)). lia.
  - change 1 with (Z.of_nat 1). rewrite page_is_chunk by done.
    simpl. apply take_ge. lia.
  - intros Hpage. replace page with (Z.of_nat (S (Z.to_nat (page - 1)))) by lia.
    rewrite page_is_chunk by done.
    rewrite drop_ge by lia. done.
Qed.

(** Fifteen versions, with the page state left at 2. *)
Lemma hidden_pagination_pages_witness :
  pagination_total (seq 0 15) = 1
  /\ pageItems_effect 1 (seq 0 15) [] = seq 0 15
  /\ pageItems_effect 2 (seq 0 15) [] = [].
Proof.
  pose proof (hidden_pagination_pages (seq 0 15) [] 2 ltac:(discriminate) eq_refl)
    as (Htotal & Hfirst & Hlater).
  split; [exact Htotal |]. split; [exact Hfirst | apply Hlater; lia].
Defined.

(** ** curseforge.ts and Home.tsx: searching *)

(** X4: [search_modpacks] sends one command, "search_modpacks" with the
    query, whatever happens; it writes to the console exactly when the
    search fails, and raises no alert. *)
Theorem search_modpacks_effects (query : string) (w : world) :
  let t := trace (run (search_modpacks query) w) in
  invokes_of t = [("search_modpacks", [("query", Val (JStr query))])]
  /\ console_errors_of t =
       (if search_fails query w then ["failed to search packs"] else [])
  /\ alerts_of t = [].
Proof.
  unfold search_fails, search_modpacks, invoke, perform.
  cbn [bind try_catch run handle trace].
  destruct (settled (backend w "search_modpacks" _)) as [e | response]; [by repeat split |].
  cbn [lift bind try_catch run handle trace].
  destruct (json w response); by repeat split.
Qed.

Lemma search_modpacks_failed (query : string) (w : world) :
  search_fails query w = true ->
  result (run (search_modpacks query) w) = inr (JObj []).
Proof.
  unfold search_fails, search_modpacks, invoke, perform.
  cbn [bind try_catch run handle result].
  destruct (settled (backend w "search_modpacks" _)) as [e | response]; [done |].
  cbn [lift bind try_catch run handle result].
  by destruct (json w response).
Qed.

(** X5: after a failed search the state [items] is the empty object, and
    building the rows of [Home] from it throws a [TypeError]: [.map] is
    called on [undefined]. *)
Theorem failed_search_breaks_rows (query : string) (w : world) (items : jsval) :
  search_fails query w = true ->
  result (run (search_modpacks query) w) = inr items ->
  Home_rows (Some items) = inl (TypeError "Cannot read properties (reading 'map')").
Proof.
  intros Hfail Hres. rewrite (search_modpacks_failed _ _ Hfail) in Hres.
  by injection Hres as <-.
Qed.

Lemma failed_search_breaks_rows_witness :
  Home_rows (Some (JObj [])) = inl (TypeError "Cannot read properties (reading 'map')").
Proof.
  apply (failed_search_breaks_rows "atm" (atm_world (inl (Rejected "offline")) []));
    reflexivity.
Defined.

(** ** Home.tsx: the rows *)

Lemma map_rows_Forall2 (data : list jsval) (rows : list PackItemProps) :
  map_rows data = inr rows -> Forall2 (fun item row => Home_row item = inr row) data rows.
Proof.
  revert rows. induction data as [| item data IH]; intros rows H; simpl in H.
  - injection H as <-. constructor.
  - destruct (Home_row item) as [e | row] eqn:Hrow; [done |].
    destruct (map_rows data) as [e | rest]; [done |].
    injection H as <-. constructor; [done | by apply IH].
Qed.

Lemma Home_row_fields (item : jsval) (row : PackItemProps) :
  Home_row item = inr row ->
  get_prop item "id" = inr (id row)
  /\ get_prop item "name" = inr (name row)
  /\ get_prop item "summary" = inr (description row)
  /\ onUnpack row = Home_onUnpack item.
Proof.
  unfold Home_row. intros H.
  repeat match type of H with
         | match ?x with _ => _ end = _ => destruct x eqn:?; try discriminate
         end.
  injection H as <-. simpl. auto.
Qed.

(** X6: when the rows of [Home] can be built from a search result, there
    is one row per item of [data], in order, and each row carries the id,
    name and summary of its item and the unpack handler of that item. *)
Theorem Home_rows_mirror_data (items : jsval) (data : list jsval)
    (rows : list PackItemProps) :
  get_prop items "data" = inr (JArr data) ->
  Home_rows (Some items) = inr rows ->
  length rows = length data
  /\ Forall2 (fun item row =>
                get_prop item "id" = inr (id row)
                /\ get_prop item "name" = inr (name row)
                /\ get_prop item "summary" = inr (description row)
                /\ onUnpack row = Home_onUnpack item) data rows.
Proof.
  intros Hdata Hrows.
  assert (Hmap : map_rows data = inr rows).
  { unfold Home_rows in Hrows. destruct items; try discriminate; by rewrite Hdata in Hrows. }
  apply map_rows_Forall2 in Hmap. split.
  - symmetry. by eapply Forall2_length.
  - eapply Forall2_impl; [exact Hmap |]. intros item row. apply Home_row_fields.
Qed.

Lemma Home_rows_mirror_data_witness :
  length [atm_row; atm_row] = length [atm_item; atm_item]
  /\ Forall2 (fun item row =>
                get_prop item "id" = inr (id row)
                /\ get_prop item "name" = inr (name row)
                /\ get_prop item "summary" = inr (description row)
                /\ onUnpack row = Home_onUnpack item)
             [atm_item; atm_item] [atm_row; atm_row].
Proof.
  apply (Home_rows_mirror_data (JObj [("data", JArr [atm_item; atm_item])]));
    reflexivity.
Defined.

Lemma map_rows_fails (data : list jsval) (item : jsval) :
  item ∈ data -> (exists e, Home_row item = inl e) -> exists e, map_rows data = inl e.
Proof.
  intros Hin [e He]. induction Hin as [item data | item other data Hin IH]; simpl.
  - rewrite He. by exists e.
  - destruct (Home_row other) as [e' | row]; [by exists e' |].
    destruct (IH He) as [e' ->]. by exists e'.
Qed.

(** X7: one item without an author, or without a latest file, is enough
    for the whole row list to fail: [item.authors[0].name] and
    [item.latestFilesIndexes[0].gameVersion] read a property of
    [undefined]. *)
Theorem item_without_author_breaks_rows (items : jsval) (data : list jsval) (item : jsval) :
  get_prop items "data" = inr (JArr data) ->
  item ∈ data ->
  get_prop item "authors" = inr (JArr [])
  \/ get_prop item "latestFilesIndexes" = inr (JArr []) ->
  exists e, Home_rows (Some items) = inl e.
Proof.
  intros Hdata Hin Hempty.
  assert (Hrow : exists e, Home_row item = inl e).
  { unfold Home_row. destruct Hempty as [H | H]; rewrite H; cbn [get_index lookup list_lookup default get_prop];
      repeat match goal with
             | |- context [match ?x with _ => _ end] => destruct x
             end; eauto. }
  destruct (map_rows_fails data item Hin Hrow) as [e He].
  exists e. unfold Home_rows. destruct items; try discriminate; by rewrite Hdata.
Qed.

Lemma item_without_author_breaks_rows_witness :
  exists e,
    Home_rows (Some (JObj [("data", JArr [atm_item; JObj [("id", JNum 7); ("authors", JArr [])]])]))
    = inl e.
Proof.
  apply (item_without_author_breaks_rows _
           [atm_item; JObj [("id", JNum 7); ("authors", JArr [])]]
           (JObj [("id", JNum 7); ("authors", JArr [])])).
  - reflexivity.
  - apply list_elem_of_In. simpl. auto.
  - left. reflexivity.
Defined.

(** ** curseforge.ts: the unpack commands *)






(** A callback that throws on the one message of the sample world: the
    command resolves, and so does [unpack_modpack]. *)
Example throwing_callback_does_not_reject :
  run (unpack_modpack (JNum 925201) (JStr "C:/packs/atm")
         (fun _ => Throw (TypeError "callback failed")))
      (atm_world (inr JNull) [])
  = {| trace := [Observed (Invoke "unpack"
                             (unpack_args (JNum 925201) (JStr "C:/packs/atm")))];
       after := atm_world (inr JNull) [];
       result := inr tt |}.
Proof. reflexivity. Qed.

(** ** Home.tsx: the unpack handlers, whatever the core answers *)


Lemma run_Home_unpackArchive (w : world) :
  run Home_unpackArchive w =
    match truthy_path (mjoin (head (dialogs w))) with
    | None =>
        {| trace := [Observed (OpenFileDialog "Select a pack archive" false)];
           after := answered w; result := inr tt |}
    | Some file =>
        match truthy_path (mjoin (head (tail (dialogs w)))) with
        | None =>
            {| trace := [Observed (OpenFileDialog "Select a pack archive" false); save_dialog];
               after := answered (answered w); result := inr tt |}
        | Some path =>
            let reply := backend w "unpack_file" (unpack_file_args (JStr file) (JStr path)) in
            {| trace := Observed (OpenFileDialog "Select a pack archive" false)
                        :: save_dialog
                        :: Observed (Invoke "unpack_file"
                                       (unpack_file_args (JStr file) (JStr path)))
                        :: progress_updates (delivered reply)
                        ++ closing_effects (settled reply) (JStr path);
               after := answered (answered w); result := inr tt |}
        end
    end.
Proof.
  unfold Home_unpackArchive, save_location_dialog, perform.
  cbn [bind run handle]. fold (answered w).
  destruct (truthy_path (mjoin (head (dialogs w)))) as [file |]; [| reflexivity].
  cbn [bind run handle]. fold (answered (answered w)).
  change (dialogs (answered w)) with (tail (dialogs w)).
  destruct (truthy_path (mjoin (head (tail (dialogs w))))) as [path |]; [| reflexivity].
  rewrite run_bind, run_try_catch, run_unpack_modpack_file.
  cbn [backend answered trace after result]. unfold closing_effects, save_dialog.
  destruct (settled _); cbn [trace after result run bind unpack_failed after_unpack perform handle app];
    rewrite <- ?app_assoc; reflexivity.
Qed.




(** X11: when the core resolves the command, the handler raises exactly
    one alert, "Unpack Finished", whose "Open" action opens the output
    path the command was given. *)
Theorem resolved_unpack_raises_one_alert (item item_id resolved : jsval)
    (args : list jsval) (w : world) :
  get_prop item "id" = inr item_id ->
  let path := default JUndefined (args !! 0%nat) in
  settled (backend w "unpack" (unpack_args item_id path)) = inr resolved ->
  alerts_of (trace (run (Home_onUnpack item args) w)) = [finished_alert path]
  /\ alert_actions (finished_alert path) = [("Open", path)]
  /\ console_errors_of (trace (run (Home_onUnpack item args) w)) = [].
Proof.
  intros Hid path Hres. split; [| split; [reflexivity |]].
  - rewrite (alerts_Home_onUnpack _ _ _ _ Hid). fold path. by rewrite Hres.
  - rewrite (trace_Home_onUnpack _ _ _ _ Hid). fold path. rewrite Hres.
    unfold closing_effects. cbn [app].
    change (console_errors_of (?o :: ?t ++ ?u)) with (console_errors_of ([o] ++ t ++ u)).
    unfold console_errors_of. rewrite !omap_app.
    assert (Hnone : forall msgs, omap (fun o => match o with
                                      | @Observed _ (ConsoleError msg) => Some msg
                                      | _ => None
                                      end) (progress_updates msgs) = [])
      by (induction msgs; simpl; auto).
    by rewrite Hnone.
Qed.

Lemma resolved_unpack_raises_one_alert_witness :
  alerts_of (trace (run (Home_onUnpack atm_item [JStr "C:/packs/atm"])
                        (atm_world (inr JNull) [])))
  = [finished_alert (JStr "C:/packs/atm")].
Proof.
  apply (resolved_unpack_raises_one_alert atm_item (JNum 925201) JNull
           [JStr "C:/packs/atm"] (atm_world (inr JNull) []));
    reflexivity.
Defined.

(** X12: when one of the two dialogs of the archive button is dismissed,
    no command is sent to the core, no alert is raised and the progress
    overlay is not touched. *)
Theorem dismissed_archive_dialog_does_nothing (w : world) :
  archive_dialogs_dismissed w = true ->
  invokes_of (trace (run Home_unpackArchive w)) = []
  /\ alerts_of (trace (run Home_unpackArchive w)) = []
  /\ progress_states_of (trace (run Home_unpackArchive w)) = [].
Proof.
  unfold archive_dialogs_dismissed. intros H. rewrite run_Home_unpackArchive.
  destruct (truthy_path (mjoin (head (dialogs w)))); [| by repeat split].
  destruct (truthy_path (mjoin (head (tail (dialogs w))))); [done | by repeat split].
Qed.

Lemma dismissed_archive_dialog_does_nothing_witness :
  let w := atm_world (inr JNull) [Some "C:/downloads/atm.zip"; None] in
  invokes_of (trace (run Home_unpackArchive w)) = []
  /\ alerts_of (trace (run Home_unpackArchive w)) = []
  /\ progress_states_of (trace (run Home_unpackArchive w)) = [].
Proof.
  apply (dismissed_archive_dialog_does_nothing
           (atm_world (inr JNull) [Some "C:/downloads/atm.zip"; None])).
  reflexivity.
Defined.

(** X13: with both dialogs answered, the archive button sends exactly
    one command, "unpack_file", with the archive chosen first as [file]
    and the directory chosen second as [output]. *)
Theorem archive_button_sends_file_and_output (file path : string)
    (rest : list (option string)) (w : world) :
  dialogs w = Some file :: Some path :: rest ->
  file <> "" -> path <> "" ->
  invokes_of (trace (run Home_unpackArchive w)) =
    [("unpack_file", unpack_file_args (JStr file) (JStr path))].
Proof.
  intros Hd Hf Hp. rewrite run_Home_unpackArchive, Hd.
  cbn [head tail mjoin option_join].
  rewrite (truthy_path_nonempty _ Hf), (truthy_path_nonempty _ Hp). cbn [trace].
  change (invokes_of (?a :: ?b :: ?c :: ?t ++ ?u)) with (invokes_of ([a; b; c] ++ t ++ u)).
  rewrite !invokes_of_app, invokes_of_deliver. unfold closing_effects.
  by destruct (settled _).
Qed.

Lemma archive_button_sends_file_and_output_witness :
  invokes_of (trace (run Home_unpackArchive
                       (atm_world (inr JNull) [Some "C:/downloads/atm.zip"; Some "C:/packs/atm"])))
  = [("unpack_file", unpack_file_args (JStr "C:/downloads/atm.zip") (JStr "C:/packs/atm"))].
Proof.
  apply (archive_button_sends_file_and_output "C:/downloads/atm.zip" "C:/packs/atm" []
           (atm_world (inr JNull) [Some "C:/downloads/atm.zip"; Some "C:/packs/atm"]));
    [reflexivity | discriminate | discriminate].
Defined.

(** ** PackItemComponent.tsx: the save dialog *)

(** X14: when the save dialog is dismissed (or answered with an empty
    path), "Download Latest", the older "Download" button and the
    confirmation of the version picker do nothing more: [onUnpack] is not
    called and no command is sent, not even the version listing. *)
Theorem dismissed_save_dialog_does_nothing (props : PackItemProps) (fileId : jsval)
    (w : world) :
  truthy_path (mjoin (head (dialogs w))) = None ->
  run (PackItem_downloadLatest props) w = finished_quietly w
  /\ run (PackItem_download props) w = finished_quietly w
  /\ run (PackItem_onConfirm props fileId) w = finished_quietly w.
Proof.
  intros H.
  unfold PackItem_downloadLatest, PackItem_download, PackItem_onConfirm,
    save_location_dialog, perform.
  cbn [bind run handle]. by rewrite H.
Qed.

Lemma dismissed_save_dialog_does_nothing_witness :
  invokes_of (trace (run (PackItem_downloadLatest atm_row) (atm_world (inr JNull) [None]))) = [].
Proof.
  destruct (dismissed_save_dialog_does_nothing atm_row (JNum 20)
              (atm_world (inr JNull) [None]) eq_refl) as (-> & _ & _).
  reflexivity.
Defined.

(** X15: when the version listing is rejected, or lists no version,
    "Download Latest" throws after the listing: no unpack command is
    sent, [onUnpack] is not called, and the user gets no alert. *)
Theorem download_latest_without_listing (props : PackItemProps) (path : string)
    (rest : list (option string)) (w : world) :
  dialogs w = Some path :: rest -> path <> "" ->
  (exists e, settled (backend w "get_pack_versions" [("id", Val (id props))]) = inl e)
  \/ settled (backend w "get_pack_versions" [("id", Val (id props))]) = inr (JArr []) ->
  let r := run (PackItem_downloadLatest props) w in
  (exists e, result r = inl e)
  /\ trace r = [save_dialog; Observed (Invoke "get_pack_versions" [("id", Val (id props))])].
Proof.
  intros Hd Hp Hlisting r. subst r.
  unfold PackItem_downloadLatest, save_location_dialog, get_pack_versions, invoke, perform.
  answer_dialog Hd Hp. cbn [bind run handle backend trace result].
  destruct Hlisting as [[e He] | Hempty].
  - rewrite He. cbn [lift bind run trace result]. split; [by exists e | done].
  - rewrite Hempty. cbn [lift bind get_index lookup list_lookup default get_prop run trace result].
    split; [by eexists | done].
Qed.

Lemma download_latest_without_listing_witness :
  let w := {| backend := fun _ _ => {| delivered := []; settled := inr (JArr []) |};
              json := fun _ => inl (SyntaxError "Unexpected token");
              dialogs := [Some "C:/packs/atm"] |} in
  trace (run (PackItem_downloadLatest atm_row) w)
  = [save_dialog; Observed (Invoke "get_pack_versions" [("id", Val (JNum 925201))])].
Proof.
  intros w.
  apply (download_latest_without_listing atm_row "C:/packs/atm" [] w);
    [reflexivity | discriminate | right; reflexivity].
Defined.

Lemma result_detach (p : prog unit) (w : world) : result (run (detach p) w) = inr tt.
Proof.
  unfold detach. rewrite run_try_catch. by destruct (result (run p w)) as [e | []].
Qed.

(** X16: a click on "Download" in a row of the version picker closes the
    picker right after the save dialog was opened, before the dialog is
    answered and whatever the answer is. *)
Theorem picking_a_version_closes_the_picker (props : PackItemProps)
    (version fileId : jsval) (w : world) :
  get_prop version "id" = inr fileId ->
  exists later,
    trace (run (PackItem_pickVersion props version) w) =
      save_dialog :: Observed (SetSelectedPackId None) :: later
    /\ (truthy_path (mjoin (head (dialogs w))) = None -> later = [])
    /\ result (run (PackItem_pickVersion props version) w) = inr tt.
Proof.
  intros Hid. unfold PackItem_pickVersion, versionRow_onClick.
  rewrite Hid. cbn [lift bind].
  unfold PackItem_onConfirm, save_location_dialog, perform.
  cbn [bind detach_then awaited run handle trace result]. unfold and_then.
  cbn [bind try_catch run handle trace result].
  rewrite run_bind, result_detach. cbn [trace result run].
  eexists. split; [reflexivity |]. split; [| reflexivity].
  intros Hnone. rewrite Hnone. reflexivity.
Qed.

Lemma picking_a_version_closes_the_picker_witness :
  exists later,
    trace (run (PackItem_pickVersion atm_row (Core.encode_version atm_v20))
               (atm_world (inr JNull) [None])) =
      save_dialog :: Observed (SetSelectedPackId None) :: later.
Proof.
  destruct (picking_a_version_closes_the_picker atm_row (Core.encode_version atm_v20)
              (JNum 20) (atm_world (inr JNull) [None]) eq_refl) as (later & H & _).
  exists later. exact H.
Defined.

(** X17: for a row of [Home], the "Download" button of the older
    component sends one command to the core: "unpack" with the id of the
    row's item and the chosen directory. *)
Theorem download_button_unpacks_its_pack (item : jsval) (props : PackItemProps)
    (path : string) (rest : list (option string)) (w : world) :
  Home_row item = inr props ->
  dialogs w = Some path :: rest -> path <> "" ->
  invokes_of (trace (run (PackItem_download props) w)) =
    [("unpack", unpack_args (id props) (JStr path))]
  /\ get_prop item "id" = inr (id props).
Proof.
  intros Hrow Hd Hp. destruct (Home_row_fields _ _ Hrow) as (Hitem & _ & _ & Hun).
  split; [| done].
  unfold PackItem_download, save_location_dialog, perform.
  answer_dialog Hd Hp. cbn [trace]. rewrite trace_detach, Hun.
  rewrite (trace_Home_onUnpack _ _ _ _ Hitem). cbn [lookup list_lookup default].
  change (invokes_of (?a :: ?b :: ?t ++ ?u)) with (invokes_of ([a; b] ++ t ++ u)).
  rewrite !invokes_of_app, invokes_of_deliver. unfold closing_effects.
  by destruct (settled _).
Qed.

Lemma download_button_unpacks_its_pack_witness :
  invokes_of (trace (run (PackItem_download atm_row)
                       (atm_world (inr JNull) [Some "C:/packs/atm"]))) =
    [("unpack", unpack_args (JNum 925201) (JStr "C:/packs/atm"))].
Proof.
  apply (download_button_unpacks_its_pack atm_item atm_row "C:/packs/atm" []
           (atm_world (inr JNull) [Some "C:/packs/atm"]));
    [reflexivity | reflexivity | discriminate].
Defined.

(** ** OInput.tsx *)

Lemma assoc_js_set (key k : string) (v : jsval) (fields : list (string * jsval)) :
  assoc k (js_set key v fields) = if String.eqb key k then Some v else assoc k fields.
Proof.
  induction fields as [| [k0 x] fields IH]; simpl.
  - by destruct (String.eqb key k).
  - destruct (String.eqb k0 key) eqn:H0; simpl.
    + apply String.eqb_eq in H0 as ->. by destruct (String.eqb key k).
    + rewrite IH. destruct (String.eqb key k) eqn:H1; [| done].
      apply String.eqb_eq in H1 as <-. by rewrite H0.
Qed.

Lemma assoc_None_notin (k : string) (fields : list (string * jsval)) :
  k ∉ fields.*1 -> assoc k fields = None.
Proof.
  induction fields as [| [k0 x] fields IH]; simpl; [done |].
  intros Hnotin. apply not_elem_of_cons in Hnotin as [Hne Hnotin].
  rewrite (proj2 (String.eqb_neq k0 k)) by congruence. by apply IH.
Qed.

(** With distinct keys in [source], a property of [{...target, ...source}]
    comes from [source] when it has it, from [target] otherwise. *)
Lemma assoc_js_assign (k : string) (target source : list (string * jsval)) :
  NoDup source.*1 ->
  assoc k (js_assign target source) =
    match assoc k source with
    | Some v => Some v
    | None => assoc k target
    end.
Proof.
  unfold js_assign. revert target.
  induction source as [| [k0 x] source IH]; intros target Hnd; simpl; [done |].
  apply NoDup_cons in Hnd as [Hnotin Hnd]. rewrite IH by done.
  rewrite assoc_js_set. destruct (String.eqb k0 k) eqn:H0.
  - apply String.eqb_eq in H0 as ->. by rewrite assoc_None_notin.
  - done.
Qed.

(** X18: [OInput] hands every prop of its caller to [Input] unchanged,
    [classNames] included: when the caller passes [classNames], the spread
    [{...props}] overrides the merged class names and the wrapper classes
    of [OInput] do not reach [Input]. Only when the caller passes no
    [classNames] does [Input] get [inputWrapper], merged by [cn] from the
    three class strings of [OInput]. *)
Theorem OInput_props_override_classNames (cn : list jsval -> jsval)
    (props : list (string * jsval)) :
  NoDup props.*1 ->
  (forall k v, assoc k props = Some v -> assoc k (OInput cn props) = Some v)
  /\ (assoc "classNames" props = None ->
      assoc "classNames" (OInput cn props) =
        Some (JObj [("inputWrapper", cn (inputWrapper_classes ++ [JUndefined]))]))
  /\ (forall k, k <> "classNames" -> assoc k (OInput cn props) = assoc k props).
Proof.
  intros Hnd. unfold OInput. split; [| split].
  - intros k v Hk. by rewrite assoc_js_assign, Hk.
  - intros Hnone. rewrite assoc_js_assign, Hnone by done. reflexivity.
  - intros k Hk. rewrite assoc_js_assign by done.
    destruct (assoc k props); [done |].
    apply assoc_None_notin. simpl. intros Hin.
    apply list_elem_of_singleton in Hin. congruence.
Qed.

Lemma OInput_props_override_classNames_witness :
  let cn := fun classes : list jsval => JArr classes in
  let props := [("label", JStr "Search");
                ("classNames", JObj [("inputWrapper", JStr "bg-red-500")])] in
  assoc "classNames" (OInput cn props) = Some (JObj [("inputWrapper", JStr "bg-red-500")])
  /\ assoc "label" (OInput cn props) = Some (JStr "Search").
Proof.
  intros cn props.
  assert (Hnd : NoDup props.*1) by (apply (bool_decide_unpack _); vm_compute; exact I).
  destruct (OInput_props_override_classNames cn props Hnd) as (Hall & _ & _).
  split; apply Hall; reflexivity.
Defined.

(** ** PackVersionSelectModal.tsx: the rows and their buttons *)

(** X19: the "Download" button of row [i] on page [p] hands to
    [onConfirm] the id of the version at position [(p - 1) * 20 + i] of
    the fetched list: the version the row shows. *)
Theorem row_button_confirms_its_version (fileItems pageItems : list jsval) (page : Z)
    (i : nat) (item fileId : jsval) (onConfirm : jsval -> prog unit) (onClose : prog unit) :
  fileItems <> [] ->
  1 <= page ->
  pageItems_effect page fileItems pageItems !! i = Some item ->
  get_prop item "id" = inr fileId ->
  fileItems !! (20 * Z.to_nat (page - 1) + i)%nat = Some item
  /\ (i < 20)%nat
  /\ versionRow_onClick onConfirm onClose item = detach_then (onConfirm fileId) onClose.
Proof.
  intros Hne Hp Hrow Hid.
  replace page with (Z.of_nat (S (Z.to_nat (page - 1)))) in Hrow by lia.
  rewrite page_is_chunk in Hrow by done.
  apply lookup_take_Some in Hrow as [Hrow Hi]. rewrite lookup_drop in Hrow.
  split; [exact Hrow |]. split; [exact Hi |].
  unfold versionRow_onClick. by rewrite Hid.
Qed.

Lemma row_button_confirms_its_version_witness :
  let versions := (fun n : nat => JObj [("id", JNum (Z.of_nat n))]) <$> seq 100 45 in
  versions !! 42%nat = Some (JObj [("id", JNum 142)])
  /\ versionRow_onClick (PackItem_onConfirm atm_row) (Ret tt) (JObj [("id", JNum 142)])
     = detach_then (PackItem_onConfirm atm_row (JNum 142)) (Ret tt).
Proof.
  intros versions.
  destruct (row_button_confirms_its_version versions [] 3 2 (JObj [("id", JNum 142)])
              (JNum 142) (PackItem_onConfirm atm_row) (Ret tt)
              ltac:(discriminate) ltac:(lia) eq_refl eq_refl) as (H1 & _ & H2).
  split; [exact H1 | exact H2].
Defined.
